(** * yt_transcript2: caption track selection, cue de-duplication and
      segmentation

    A shallow embedding of [lambda/function/yt_transcript2.py].

    Conventions of the embedding.
    - A Python [str] is a [string]; only the ASCII white space characters are
      white space for [strip].
    - A Python [float] holding a time is an exact rational ([Q]): every time
      the cue pipeline handles is a whole number of milliseconds.  Binary64
      differs from the rationals by far less than a microsecond on times
      below 100 hours, so the order of two such times is the same in both;
      what is not the same is an equality of two computed times and a
      comparison that falls on a threshold (a gap of exactly 1 s or 3 s, a
      difference of exactly 0.15 s).  The numbered properties below are
      stated so as not to depend on either: times in seconds are given to
      within a tolerance, and thresholds are approached by whole
      milliseconds; the lemmas that lead to them speak of the rationals of
      the model.  The one function whose result depends on binary rounding,
      [convert_caption_data], is embedded over binary64 ([Binary64] below).
    - An exception is a value of [exn]; fallible code returns [result].
    - The generator [dedupe_yt_captions] is embedded as the list it yields;
      a yielded [None] is [None : option Caption]. *)

From Stdlib Require Import ZArith QArith Qround Qabs Lia Lqa Bool List.
From Stdlib Require Import Ascii String DecimalString DecimalN.
From Stdlib Require Import SpecFloat.
Import ListNotations.

Local Open Scope string_scope.
Local Open Scope Z_scope.

(** ** Exceptions *)

Inductive exn : Type :=
| ValueError (msg : string)
| AttributeError (msg : string)
| IndexError (msg : string)
| OverflowError (msg : string)
| MalformedCaptionError (msg : string).

Inductive result (A : Type) : Type :=
| Ok (a : A)
| Raise (e : exn).

Arguments Ok {A} a.
Arguments Raise {A} e.

Definition bind {A B : Type} (r : result A) (k : A -> result B) : result B :=
  match r with
  | Ok a => k a
  | Raise e => Raise e
  end.

Notation "x <- r ;; k" := (bind r (fun x => k))
  (at level 61, r at next level, right associativity).

(** ** Python strings *)

Module PyStr.

Definition nl : ascii := "010"%char.
Definition sp : ascii := " "%char.

(** [str.isspace] on one ASCII character: TAB..CR, FS..US and the space. *)
Definition is_space (c : ascii) : bool :=
  let n := nat_of_ascii c in
  ((9 <=? n) && (n <=? 13) || (28 <=? n) && (n <=? 32))%nat.

Fixpoint lstrip (s : string) : string :=
  match s with
  | EmptyString => EmptyString
  | String c s' => if is_space c then lstrip s' else s
  end.

Fixpoint rstrip (s : string) : string :=
  match s with
  | EmptyString => EmptyString
  | String c s' =>
      match rstrip s' with
      | EmptyString => if is_space c then EmptyString else String c EmptyString
      | r => String c r
      end
  end.

(** [s.strip()] *)
Definition strip (s : string) : string := rstrip (lstrip s).

(** [s.split(sep)] for a one-character separator: never the empty list. *)
Fixpoint split (sep : ascii) (s : string) : list string :=
  match s with
  | EmptyString => [EmptyString]
  | String c s' =>
      if Ascii.eqb c sep then EmptyString :: split sep s'
      else match split sep s' with
           | h :: t => String c h :: t
           | [] => [String c EmptyString]
           end
  end.

(** [sep.join(l)] *)
Definition join (sep : string) (l : list string) : string := concat sep l.

(** [needle in hay] *)
Fixpoint contains (needle hay : string) : bool :=
  prefix needle hay ||
  match hay with
  | EmptyString => false
  | String _ hay' => contains needle hay'
  end.

(** [s.startswith(p)] *)
Definition startswith (s p : string) : bool := prefix p s.

(** [s.replace(a, b)] for one-character [a] and [b]. *)
Fixpoint replace (a b : ascii) (s : string) : string :=
  match s with
  | EmptyString => EmptyString
  | String c s' => String (if Ascii.eqb c a then b else c) (replace a b s')
  end.

(** [re.sub(r' +', ' ', s)]: every maximal run of spaces becomes one. *)
Fixpoint collapse_spaces (s : string) : string :=
  match s with
  | EmptyString => EmptyString
  | String c s' =>
      if Ascii.eqb c sp then
        match s' with
        | String c' _ =>
            if Ascii.eqb c' sp then collapse_spaces s'
            else String c (collapse_spaces s')
        | EmptyString => String c EmptyString
        end
      else String c (collapse_spaces s')
  end.

Fixpoint zeros (n : nat) : string :=
  match n with
  | O => EmptyString
  | S n' => String "0" (zeros n')
  end.

(** [s.zfill(w)] for a string without sign. *)
Definition zfill (w : nat) (s : string) : string :=
  zeros (w - length s) ++ s.

End PyStr.

(** ** Python numbers *)

Module PyNum.

Import PyStr.

Local Open Scope Q_scope.

Definition Qltb (x y : Q) : bool := negb (Qle_bool y x).

(** [x // y] and [x % y] on floats, for [y > 0]. *)
Definition floordiv (x y : Q) : Z := Qfloor (x / y).
Definition pymod (x y : Q) : Q := x - y * inject_Z (floordiv x y).

(** [max(x, 0)] *)
Definition max0 (x : Q) : Q := if Qltb x 0 then 0 else x.

(** Rounding to the nearest integer, ties to even: what [round] and the
    [f] presentation type do. *)
Definition round_half_even (x : Q) : Z :=
  let f := Qfloor x in
  match Qcompare (x - inject_Z f) (1 # 2) with
  | Lt => f
  | Gt => (f + 1)%Z
  | Eq => if Z.even f then f else (f + 1)%Z
  end.

(** Decimal digits of a natural number, ["0"] for zero. *)
Definition dec (n : Z) : string :=
  NilZero.string_of_uint (N.to_uint (Z.to_N n)).

(** [f"{z:02d}"] *)
Definition fmt_02d (z : Z) : string :=
  if (z <? 0)%Z then "-" ++ zfill 1 (dec (- z)) else zfill 2 (dec z).

(** [f"{x:06.3f}"] *)
Definition fmt_06_3f (x : Q) : string :=
  let r := round_half_even (x * 1000) in
  let a := Z.abs r in
  let body := dec (a / 1000) ++ "." ++ zfill 3 (dec (a mod 1000)) in
  if (r <? 0)%Z then "-" ++ zfill 5 body else zfill 6 body.

(** [f"{z:03d}"] for [z >= 0] *)
Definition fmt_03d (z : Z) : string := zfill 3 (dec z).

(** A run of decimal digits as a number; [None] on any other character.
    The empty run is 0. *)
Definition digits_value (s : string) : option Z :=
  match NilEmpty.uint_of_string s with
  | Some d => Some (Z.of_N (N.of_uint d))
  | None => None
  end.

(** [float(s)] for plain decimal literals: optional sign, digits, an
    optional point and digits, surrounded by white space.  (Exponents,
    underscores, [inf] and [nan] are not modelled: none of the strings the
    extractor parses has them.) *)
Definition float_of_string (s : string) : option Q :=
  let s := strip s in
  let '(neg, body) :=
    match s with
    | String "-" r => (true, r)
    | String "+" r => (false, r)
    | _ => (false, s)
    end in
  let mag :=
    match split "." body with
    | [i] =>
        if (length i =? 0)%nat then None
        else match digits_value i with
             | Some n => Some (inject_Z n)
             | None => None
             end
    | [i; f] =>
        if (length i + length f =? 0)%nat then None
        else match digits_value i, digits_value f with
             | Some n, Some m =>
                 Some (inject_Z n + inject_Z m / inject_Z (10 ^ Z.of_nat (length f)))
             | _, _ => None
             end
    | _ => None
    end in
  match mag with
  | Some q => Some (if neg : bool then - q else q)
  | None => None
  end.

End PyNum.

(** ** The caption objects of the [webvtt] package *)

Module Webvtt.

Import PyStr PyNum.

(** Modelled from the spec: the [webvtt] package that provides the
    [Timestamp] and [Caption] classes is imported by the source and is not
    part of it.  A Timestamp is a point in time written H:M:S.mmm with
    whole milliseconds; a Cue is [{start, end, text}]. *)
Record Timestamp : Type := mkTimestamp {
  hours : Z;
  minutes : Z;
  seconds : Z;
  milliseconds : Z
}.

(** [Timestamp.in_seconds()]: whole seconds, the milliseconds left out. *)
Definition in_seconds (t : Timestamp) : Z :=
  hours t * 3600 + minutes t * 60 + seconds t.

(** [str(timestamp)] *)
Definition Timestamp_str (t : Timestamp) : string :=
  fmt_02d (hours t) ++ ":" ++ fmt_02d (minutes t) ++ ":" ++
  fmt_02d (seconds t) ++ "." ++ fmt_03d (milliseconds t).

Definition short_number (s : string) : option Z :=
  if ((1 <=? length s) && (length s <=? 2))%nat then digits_value s else None.

(** Modelled from the spec: [Timestamp.from_string(value)] of [webvtt],
    which reads [HH:MM:SS.mmm] or [MM:SS.mmm]. *)
Definition Timestamp_from_string (value : string) : result Timestamp :=
  let bad := Raise (MalformedCaptionError ("Invalid timestamp: " ++ value)) in
  let '(h, m, rest) :=
    match split ":" value with
    | [h; m; rest] => (short_number h, short_number m, Some rest)
    | [m; rest] => (Some 0, short_number m, Some rest)
    | _ => (None, None, None)
    end in
  match h, m, rest with
  | Some h, Some m, Some rest =>
      match split "." rest with
      | [s; ms] =>
          match short_number s, (length ms =? 3)%nat, digits_value ms with
          | Some s, true, Some ms =>
              if (59 <? m) || (59 <? s) then bad
              else Ok (mkTimestamp h m s ms)
          | _, _, _ => bad
          end
      | _ => bad
      end
  | _, _, _ => bad
  end.

(** Modelled from the spec: the [Caption] class of [webvtt], a cue with
    its start, its end and its text. *)
Record Caption : Type := mkCaption {
  start_time : Timestamp;
  end_time : Timestamp;
  text : string
}.

(** The [start] and [end] properties read as strings and parse on
    assignment; [text] is read and assigned as it is. *)
Definition get_start (c : Caption) : string := Timestamp_str (start_time c).
Definition get_end (c : Caption) : string := Timestamp_str (end_time c).

Definition set_start (v : string) (c : Caption) : result Caption :=
  t <- Timestamp_from_string v ;;
  Ok (mkCaption t (end_time c) (text c)).

Definition set_end (v : string) (c : Caption) : result Caption :=
  t <- Timestamp_from_string v ;;
  Ok (mkCaption (start_time c) t (text c)).

Definition set_text (v : string) (c : Caption) : Caption :=
  mkCaption (start_time c) (end_time c) v.

End Webvtt.

(** ** [class VideoExtractor] *)

Module VideoExtractor.

Import PyStr PyNum Webvtt.

(** *** Track selection *)

(** A track is a JSON object; a field is [None] when the key is absent. *)
Record Track : Type := mkTrack {
  name : option string;
  protocol : option string;
  ext : option string;
  url : option string
}.

(** A [dict] keeps insertion order: an association list. *)
Definition dict (V : Type) : Type := list (string * V).

Fixpoint lookup {V : Type} (k : string) (d : dict V) : option V :=
  match d with
  | [] => None
  | (k', v) :: d' => if String.eqb k k' then Some v else lookup k d'
  end.

Record Info : Type := mkInfo {
  subtitles : option (dict (list Track));
  automatic_captions : option (dict (list Track))
}.

(** Truth value of [info.get(key)]. *)
Definition truthy_dict {V : Type} (d : option (dict V)) : option (dict V) :=
  match d with
  | Some (_ :: _) => d
  | _ => None
  end.

(** Truth value of [caption_track]: [None] and the empty list are false. *)
Definition falsy (caption_track : option (list Track)) : bool :=
  match caption_track with
  | Some (_ :: _) => false
  | _ => true
  end.

Definition subtitle_priorities : list string := ["en-US"; "en-CA"; "en"].
Definition auto_caption_priorities : list string :=
  ["en-orig"; "en-US"; "en-CA"; "en"].
Definition format_priorities : list string := ["vtt"; "srt"; "ttml"].

(** [for lang in langs: if lang in d: caption_track = d[lang]; break] *)
Fixpoint first_listed {V : Type} (langs : list string) (d : dict V) : option V :=
  match langs with
  | [] => None
  | lang :: langs' =>
      match lookup lang d with
      | Some v => Some v
      | None => first_listed langs' d
      end
  end.

(** [for lang in d.keys(): if lang.startswith('en-'): ...; break] *)
Fixpoint first_en_variant {V : Type} (d : dict V) : option V :=
  match d with
  | [] => None
  | (lang, v) :: d' =>
      if startswith lang "en-" then Some v else first_en_variant d'
  end.

(** Lines 81-104: the value of [caption_track] before the format search. *)
Definition select_language (info : Info) : option (list Track) :=
  let caption_track :=
    match truthy_dict (subtitles info) with
    | Some subs =>
        match first_listed subtitle_priorities subs with
        | Some t => Some t
        | None => first_en_variant subs
        end
    | None => None
    end in
  if falsy caption_track then
    match truthy_dict (automatic_captions info) with
    | Some autos =>
        match first_listed auto_caption_priorities autos with
        | Some t => Some t
        | None => caption_track
        end
    | None => caption_track
    end
  else caption_track.

(** The [continue] test of the format loop. *)
Definition skipped (track : Track) : bool :=
  match name track with
  | None => true
  | Some _ =>
      match protocol track with
      | Some p => String.eqb p "m3u8_native"
      | None => false
      end
  end.

Definition has_ext (format : string) (track : Track) : bool :=
  match ext track with
  | Some e => String.eqb e format
  | None => false
  end.

Fixpoint first_track (format : string) (caption_track : list Track)
  : option Track :=
  match caption_track with
  | [] => None
  | track :: rest =>
      if skipped track then first_track format rest
      else if has_ext format track then Some track
      else first_track format rest
  end.

Fixpoint first_format (formats : list string) (caption_track : list Track)
  : option Track :=
  match formats with
  | [] => None
  | format :: formats' =>
      match first_track format caption_track with
      | Some track => Some track
      | None => first_format formats' caption_track
      end
  end.

Definition get_captions_by_priority (info : Info) : option Track :=
  let caption_track := select_language info in
  if falsy caption_track then None
  else
    match caption_track with
    | Some tracks => first_format format_priorities tracks
    | None => None
    end.

(** *** Timestamps *)

Local Open Scope Q_scope.

(** [float(s)] and [l[i]] with their exceptions. *)
Definition to_float (s : string) : result Q :=
  match float_of_string s with
  | Some q => Ok q
  | None => Raise (ValueError ("could not convert string to float: " ++ s))
  end.

Definition index {A : Type} (l : list A) (i : nat) : result A :=
  match nth_error l i with
  | Some a => Ok a
  | None => Raise (IndexError "list index out of range")
  end.

Definition _timestamp_to_seconds (timestamp : string) : result Q :=
  let time_parts := split ":" timestamp in
  p0 <- index time_parts 0 ;;
  hours <- to_float p0 ;;
  p1 <- index time_parts 1 ;;
  minutes <- to_float p1 ;;
  p2 <- index time_parts 2 ;;
  seconds <- to_float p2 ;;
  Ok (hours * 3600 + minutes * 60 + seconds).

Definition _seconds_to_timestamp (total_seconds : Q) : string :=
  let hours := floordiv total_seconds 3600 in
  let remaining := pymod total_seconds 3600 in
  let minutes := floordiv remaining 60 in
  let seconds := pymod remaining 60 in
  fmt_02d hours ++ ":" ++ fmt_02d minutes ++ ":" ++ fmt_06_3f seconds.

Definition _ts_to_secs (timestamp : Timestamp) : Q :=
  inject_Z (in_seconds timestamp) + inject_Z (milliseconds timestamp) / 1000.

(** *** The merger *)

(** The two ways an iteration of the loop of [dedupe_yt_captions] ends
    after the line rules: a [continue] with the previous cue updated, or
    the fall-through with the [singleword] flag and the rewritten cue. *)
Inductive line_outcome : Type :=
| Folded (previous_subtitle : Caption)
| Kept (singleword : bool) (subtitle : Caption).

(** Lines 222-246. *)
Definition line_rules (previous_subtitle subtitle : Caption)
  : result line_outcome :=
  let current_lines := split nl (text subtitle) in
  let last_lines := split nl (text previous_subtitle) in
  if String.eqb (hd "" current_lines) (last last_lines "") then
    if (List.length last_lines =? 1)%nat then
      if ((List.length (split sp (hd "" last_lines)) <? 2)
          && (2 <? length (hd "" last_lines)))%nat
      then
        Ok (Kept true
              (set_text (hd "" current_lines ++ " "
                         ++ join (String nl "") (tl current_lines)) subtitle))
      else
        Ok (Kept false (set_text (join (String nl "") (tl current_lines)) subtitle))
    else
      Ok (Kept false (set_text (join (String nl "") (tl current_lines)) subtitle))
  else
    if (List.length (split sp (text subtitle)) <=? 2)%nat then
      previous_subtitle <- set_end (get_end subtitle) previous_subtitle ;;
      let title_text := text subtitle in
      match title_text with
      | EmptyString => Raise (IndexError "string index out of range")
      | String c _ =>
          let title_text :=
            if negb (Ascii.eqb c sp) then " " ++ title_text else title_text in
          Ok (Folded (set_text (text previous_subtitle ++ title_text)
                        previous_subtitle))
      end
    else Ok (Kept false subtitle).

(** Lines 217-218: the test of the short-duplicate rule. *)
Definition short_duplicate (previous_subtitle subtitle : Caption) : bool :=
  Qltb (_ts_to_secs (start_time subtitle) - _ts_to_secs (end_time subtitle))
       (15 # 100)
  && contains (text subtitle) (text previous_subtitle).

(** One iteration of the loop with a previous cue at hand (lines 212-258):
    the cues it yields and the next previous cue. *)
Definition iteration (previous_subtitle subtitle : Caption)
  : result (list Caption * Caption) :=
  let subtitle := set_text (strip (text subtitle)) subtitle in
  if (length (text subtitle) =? 0)%nat then Ok ([], previous_subtitle)
  else if short_duplicate previous_subtitle subtitle then
    previous_subtitle <- set_end (get_end subtitle) previous_subtitle ;;
    Ok ([], previous_subtitle)
  else
    o <- line_rules previous_subtitle subtitle ;;
    match o with
    | Folded previous_subtitle => Ok ([], previous_subtitle)
    | Kept singleword subtitle =>
        previous_subtitle <-
          (if Qle_bool (_ts_to_secs (start_time subtitle))
                       (_ts_to_secs (end_time previous_subtitle))
           then
             let new_time :=
               max0 (_ts_to_secs (start_time subtitle) - (1 # 1000)) in
             set_end (_seconds_to_timestamp new_time) previous_subtitle
           else Ok previous_subtitle) ;;
        subtitle <-
          (if Qle_bool (_ts_to_secs (end_time subtitle))
                       (_ts_to_secs (start_time subtitle))
           then
             let '(new_start, new_end) := (get_end subtitle, get_start subtitle) in
             subtitle <- set_start new_start subtitle ;;
             set_end new_end subtitle
           else Ok subtitle) ;;
        Ok (if negb singleword then [previous_subtitle] else [], subtitle)
    end.

(** The loop from a given value of [previous_subtitle], and the final
    [yield previous_subtitle]. *)
Fixpoint dedupe_from (previous_subtitle : option Caption)
  (subs_iter : list Caption) : result (list (option Caption)) :=
  match subs_iter with
  | [] => Ok [previous_subtitle]
  | subtitle :: rest =>
      match previous_subtitle with
      | None => dedupe_from (Some subtitle) rest
      | Some previous =>
          r <- iteration previous subtitle ;;
          let '(yielded, previous) := r in
          out <- dedupe_from (Some previous) rest ;;
          Ok (map Some yielded ++ out)%list
      end
  end.

(** [list(self.dedupe_yt_captions(subs_iter))] *)
Definition dedupe_yt_captions (subs_iter : list Caption)
  : result (list (option Caption)) :=
  dedupe_from None subs_iter.

(** *** The segmenter *)

Record Segment : Type := mkSegment {
  seg_start : string;
  seg_end : string;
  start_sec : Q;
  end_sec : Q;
  separator : string;
  seg_text : string
}.

Definition none_has_no (attr : string) : exn :=
  AttributeError ("'NoneType' object has no attribute '" ++ attr ++ "'").

(** The body of [for idx, cap in enumerate(captions)]. *)
Definition segment_of (idx : nat) (segments : list Segment)
  (cap : option Caption) : result Segment :=
  match cap with
  | None => Raise (none_has_no "text")
  | Some cap =>
      let text := strip (replace nl sp (text cap)) in
      let start_ts := get_start cap in
      let end_ts := get_end cap in
      start_sec <- _timestamp_to_seconds start_ts ;;
      end_sec <- _timestamp_to_seconds end_ts ;;
      sep <-
        (if (idx =? 0)%nat then Ok ""
         else
           match rev segments with
           | [] => Raise (IndexError "list index out of range")
           | prev :: _ =>
               let gap := start_sec - VideoExtractor.end_sec prev in
               if Qltb 3 gap then Ok (String nl (String nl ""))
               else if Qltb 1 gap then Ok (String nl "")
               else Ok " "
           end) ;;
      Ok (mkSegment start_ts end_ts start_sec end_sec sep
            (collapse_spaces text))
  end.

Fixpoint segments_from (idx : nat) (segments : list Segment)
  (captions : list (option Caption)) : result (list Segment) :=
  match captions with
  | [] => Ok segments
  | cap :: rest =>
      seg <- segment_of idx segments cap ;;
      segments_from (S idx) (segments ++ [seg])%list rest
  end.

Section ParseCaptions.

(** [webvtt.from_string]: the parser of the [webvtt] package, which is
    imported by the source and not part of it. *)
Variable from_string : string -> result (list Caption).

Definition parse_captions (ext content : string) : result (list Segment) :=
  if negb (String.eqb ext "vtt") then
    Raise (ValueError ("Unsupported caption format: " ++ ext))
  else
    raw_captions <- from_string content ;;
    captions <- dedupe_yt_captions raw_captions ;;
    segments_from 0 [] captions.

End ParseCaptions.

End VideoExtractor.

(** ** Binary64 floats and [convert_caption_data] *)

Module Binary64.

Definition prec : Z := 53.
Definition emax : Z := 1024.

Definition float : Type := spec_float.

Definition of_Z (z : Z) : float := binary_normalize prec emax z 0 false.
Definition add : float -> float -> float := SFadd prec emax.
Definition sub : float -> float -> float := SFsub prec emax.
Definition mul : float -> float -> float := SFmul prec emax.
Definition div : float -> float -> float := SFdiv prec emax.

(** The exact value of a finite float. *)
Definition value (x : float) : Q :=
  match x with
  | S754_finite s m e =>
      let v := if (0 <=? e)%Z then inject_Z (Zpos m * 2 ^ e)
               else (inject_Z (Zpos m) / inject_Z (2 ^ (- e)))%Q in
      if s then (- v)%Q else v
  | _ => 0%Q
  end.

Definition sign_of (s : bool) (z : Z) : Z := if s then - z else z.

(** [int(x)]: the integer part, towards zero. *)
Definition to_int (x : float) : result Z :=
  match x with
  | S754_zero _ => Ok 0
  | S754_finite s m e =>
      Ok (sign_of s (if 0 <=? e then Zpos m * 2 ^ e
                     else Zpos m / 2 ^ (- e)))
  | S754_infinity _ =>
      Raise (OverflowError "cannot convert float infinity to integer")
  | S754_nan => Raise (ValueError "cannot convert float NaN to integer")
  end.

(** [round(x)]: the nearest integer, a tie goes to the even one. *)
Definition round (x : float) : result Z :=
  match x with
  | S754_zero _ => Ok 0
  | S754_finite s m e =>
      Ok (sign_of s
            (if 0 <=? e then Zpos m * 2 ^ e
             else
               let q := Zpos m / 2 ^ (- e) in
               let r := Zpos m mod 2 ^ (- e) in
               match 2 * r ?= 2 ^ (- e) with
               | Lt => q
               | Gt => q + 1
               | Eq => if Z.even q then q else q + 1
               end))
  | S754_infinity _ =>
      Raise (OverflowError "cannot convert float infinity to integer")
  | S754_nan => Raise (ValueError "cannot convert float NaN to integer")
  end.

End Binary64.

(** [str(timedelta(seconds=n))] for an integer [n]. *)
Definition timedelta_str (n : Z) : result string :=
  let days := n / 86400 in
  let secs := n mod 86400 in
  if 999999999 <? Z.abs days then
    Raise (OverflowError "days must have magnitude <= 999999999")
  else
    let '(mm, ss) := (secs / 60, secs mod 60) in
    let '(hh, mm) := (mm / 60, mm mod 60) in
    let s := PyNum.dec hh ++ ":" ++ PyNum.fmt_02d mm ++ ":" ++ PyNum.fmt_02d ss in
    Ok (if days =? 0 then s
        else
          (if days <? 0 then "-" ++ PyNum.dec (- days) else PyNum.dec days)
          ++ " day" ++ (if Z.abs days =? 1 then "" else "s") ++ ", " ++ s).

(** The keys of a segment that [convert_caption_data] reads, the seconds as
    the binary64 numbers they are. *)
Record caption_data : Type := mkData {
  data_start_sec : Binary64.float;
  data_end_sec : Binary64.float;
  data_text : string
}.

Record converted : Type := mkConverted {
  conv_text : string;
  offset : Z;
  offsetText : string;
  duration : Z
}.

Definition convert_caption_data (data : caption_data) : result converted :=
  let start_sec := data_start_sec data in
  let end_sec := data_end_sec data in
  offset <- Binary64.to_int (Binary64.mul start_sec (Binary64.of_Z 1000)) ;;
  whole <- Binary64.to_int start_sec ;;
  offset_text <- timedelta_str whole ;;
  duration <-
    Binary64.to_int
      (Binary64.mul (Binary64.sub end_sec start_sec) (Binary64.of_Z 1000)) ;;
  Ok (mkConverted (data_text data) offset offset_text duration).

(** * Properties *)

Import PyStr PyNum Webvtt VideoExtractor.

(** The timestamp of a whole number of milliseconds, and a cue between two
    of them: the inputs of the scenarios below. *)
Definition at_ms (k : Z) : Timestamp :=
  mkTimestamp (k / 3600000) (k mod 3600000 / 60000) (k mod 60000 / 1000)
              (k mod 1000).

Definition cue (start_ms end_ms : Z) (t : string) : Caption :=
  mkCaption (at_ms start_ms) (at_ms end_ms) t.

Definition lines2 (a b : string) : string := a ++ String nl b.

(** What the segmenter makes of a cue's text (lines 308 and 333). *)
Definition collapsed_text (c : Caption) : string :=
  collapse_spaces (strip (replace nl sp (text c))).

(** The incoming cue as the loop sees it after line 212. *)
Definition stripped (subtitle : Caption) : Caption :=
  set_text (strip (text subtitle)) subtitle.

(** The first cue as it is, the others with their text stripped. *)
Definition restripped (cues : list Caption) : list Caption :=
  match cues with
  | [] => []
  | c :: rest => c :: map stripped rest
  end.

(** The start of a cue is not before zero and is before its end. *)
Definition well_timed (c : Caption) : Prop :=
  (0 <= _ts_to_secs (start_time c)
   /\ _ts_to_secs (start_time c) < _ts_to_secs (end_time c))%Q.

(** The cues come in the order of their starts, none before [lo], and each
    is well timed. *)
Fixpoint ordered_after (lo : Q) (cues : list Caption) : Prop :=
  match cues with
  | [] => True
  | c :: rest =>
      (lo <= _ts_to_secs (start_time c))%Q /\ well_timed c
      /\ ordered_after (_ts_to_secs (start_time c)) rest
  end.

(** No cue ends after the next one starts. *)
Fixpoint no_overlap (cues : list Caption) : Prop :=
  match cues with
  | a :: ((b :: _) as rest) =>
      (_ts_to_secs (end_time a) <= _ts_to_secs (start_time b))%Q
      /\ no_overlap rest
  | _ => True
  end.

(** Characters of the strings the formatter writes. *)
Definition is_digit (c : ascii) : bool :=
  let n := nat_of_ascii c in ((48 <=? n) && (n <=? 57))%nat.

Fixpoint all_chars (P : ascii -> bool) (s : string) : bool :=
  match s with
  | EmptyString => true
  | String c s' => P c && all_chars P s'
  end.

Definition digits_only : string -> bool := all_chars is_digit.

Definition is_not (sep : ascii) (c : ascii) : bool := negb (Ascii.eqb c sep).

(** The fields of a timestamp as [webvtt] reads them from a file: hours of
    at most two digits, minutes and seconds below 60, three digits of
    milliseconds. *)
Definition valid_timestamp (t : Timestamp) : Prop :=
  0 <= hours t < 100 /\ 0 <= minutes t < 60 /\ 0 <= seconds t < 60
  /\ 0 <= milliseconds t < 1000.

Definition valid_cue (c : Caption) : Prop :=
  valid_timestamp (start_time c) /\ valid_timestamp (end_time c).

(** The separator of a segment [b] that follows a segment [a], in the
    rationals of the model: a function of the gap between the end of [a] and
    the start of [b].  ([gap_rule] below is what remains of it in
    binary64.) *)
Definition separator_law (a b : Segment) : Prop :=
  let gap := (start_sec b - end_sec a)%Q in
  ((3 < gap)%Q -> separator b = String nl (String nl ""))
  /\ ((1 < gap)%Q -> (gap <= 3)%Q -> separator b = String nl "")
  /\ ((gap <= 1)%Q -> separator b = " ").

(** The first segment after nothing has the empty separator, every other
    segment the one the law gives after the segment before it. *)
Fixpoint separators_follow (prev : option Segment) (segs : list Segment)
  : Prop :=
  match segs with
  | [] => True
  | s :: rest =>
      match prev with
      | None => separator s = ""
      | Some p => separator_law p s
      end
      /\ separators_follow (Some s) rest
  end.

(** A segment and its cue in the rationals of the model: the same
    timestamps, the same times in seconds and the cue's text on one line.
    ([segment_reports] below is what remains of it in binary64.) *)
Definition segment_matches (c : Caption) (s : Segment) : Prop :=
  seg_start s = get_start c /\ seg_end s = get_end c
  /\ (start_sec s == _ts_to_secs (start_time c))%Q
  /\ (end_sec s == _ts_to_secs (end_time c))%Q
  /\ seg_text s = collapse_spaces (strip (replace nl sp (text c))).

Fixpoint no_double_space (s : string) : bool :=
  match s with
  | String a ((String b _) as rest) =>
      negb (Ascii.eqb a sp && Ascii.eqb b sp) && no_double_space rest
  | _ => true
  end.

Fixpoint last_char (s : string) : option ascii :=
  match s with
  | EmptyString => None
  | String c EmptyString => Some c
  | String _ rest => last_char rest
  end.

(** A text on one line, with single spaces and no white space around it. *)
Definition one_line (s : string) : Prop :=
  all_chars (is_not nl) s = true /\ no_double_space s = true /\ strip s = s.

(** The first character is not white space; the last one is not. *)
Definition head_ok (s : string) : Prop :=
  match s with
  | EmptyString => True
  | String c _ => is_space c = false
  end.

Definition last_ok (s : string) : Prop :=
  match last_char s with
  | None => True
  | Some c => is_space c = false
  end.


(** A track the format loop does not return for the format [f]. *)
Definition passed_over (f : string) (t : Track) : Prop :=
  skipped t = true \/ has_ext f t = false.

(** No segment ends after the next one starts. *)
Fixpoint segments_in_order (segs : list Segment) : Prop :=
  match segs with
  | a :: ((b :: _) as rest) =>
      (end_sec a <= start_sec b)%Q /\ segments_in_order rest
  | _ => True
  end.

(** The text rules keep the incoming cue as a cue of its own: its stripped
    text is not empty, has more than two tokens, does not occur in the text
    of the cue before it, and does not begin with that cue's last line. *)
Definition text_kept (previous_subtitle subtitle : Caption) : bool :=
  let t := strip (text subtitle) in
  negb (length t =? 0)%nat
  && (2 <? List.length (split sp t))%nat
  && negb (contains t (text previous_subtitle))
  && negb (String.eqb (hd "" (split nl t))
                      (last (split nl (text previous_subtitle)) "")).

(** Every cue after [previous_subtitle] is kept by the text rules, next to
    the stripped cue before it, and does not end before it starts. *)
Fixpoint clean_after (previous_subtitle : Caption) (cues : list Caption)
  : bool :=
  match cues with
  | [] => true
  | c :: rest =>
      text_kept previous_subtitle c
      && Qle_bool (_ts_to_secs (start_time c)) (_ts_to_secs (end_time c))
      && clean_after (stripped c) rest
  end.

Definition clean (cues : list Caption) : bool :=
  match cues with
  | [] => true
  | c :: rest => clean_after c rest
  end.

(** The cue [a] ends before the cue [b] starts, or both times are zero. *)
Definition apart (a b : Caption) : Prop :=
  (_ts_to_secs (end_time a) < _ts_to_secs (start_time b)
   \/ (_ts_to_secs (end_time a) == 0 /\ _ts_to_secs (start_time b) == 0))%Q.

Fixpoint gapped (cues : list Caption) : Prop :=
  match cues with
  | a :: ((b :: _) as rest) => apart a b /\ gapped rest
  | _ => True
  end.

(** The cue does not end before it starts. *)
Definition forward (c : Caption) : Prop :=
  (_ts_to_secs (start_time c) <= _ts_to_secs (end_time c))%Q.

(** The cues come in the order of their starts, none before [lo], and none
    ends before it starts. *)
Fixpoint in_order_after (lo : Q) (cues : list Caption) : Prop :=
  match cues with
  | [] => True
  | c :: rest =>
      (lo <= _ts_to_secs (start_time c))%Q /\ forward c
      /\ in_order_after (_ts_to_secs (start_time c)) rest
  end.

Definition in_order (cues : list Caption) : Prop :=
  match cues with
  | [] => True
  | c :: rest => in_order_after (_ts_to_secs (start_time c)) rest
  end.

(** The time of a timestamp in whole milliseconds. *)
Definition ms_of (t : Timestamp) : Z :=
  in_seconds t * 1000 + milliseconds t.

(** A segment says what its cue says: the same timestamps, the times in
    seconds of these timestamps to within a microsecond, and the cue's text
    on one line. *)
Definition segment_reports (c : Caption) (s : Segment) : Prop :=
  seg_start s = get_start c /\ seg_end s = get_end c
  /\ (Qabs (start_sec s - (ms_of (start_time c) # 1000)) < 1 # 1000000)%Q
  /\ (Qabs (end_sec s - (ms_of (end_time c) # 1000)) < 1 # 1000000)%Q
  /\ seg_text s = collapse_spaces (strip (replace nl sp (text c))).

(** The separator of the segment [s] of a cue [c] that follows the cue
    [previous]: decided by the milliseconds between the end of [previous]
    and the start of [c].  At a gap of exactly 1000 or 3000 ms the separator
    is one of the two next to that gap. *)
Definition gap_rule (previous c : Caption) (s : Segment) : Prop :=
  let gap := ms_of (start_time c) - ms_of (end_time previous) in
  (gap < 1000 -> separator s = " ")
  /\ (gap = 1000 -> separator s = " " \/ separator s = String nl "")
  /\ (1000 < gap < 3000 -> separator s = String nl "")
  /\ (gap = 3000 ->
      separator s = String nl "" \/ separator s = String nl (String nl ""))
  /\ (3000 < gap -> separator s = String nl (String nl "")).

(** The segments [segs] of the cues [ys], one for one: the first after
    nothing has the empty separator, every other one the separator the gap
    rule gives after the cue before it. *)
Fixpoint separators_by_gap (previous : option Caption) (ys : list Caption)
  (segs : list Segment) : Prop :=
  match ys, segs with
  | [], [] => True
  | c :: ys', s :: segs' =>
      match previous with
      | None => separator s = ""
      | Some p => gap_rule p c s
      end
      /\ separators_by_gap (Some c) ys' segs'
  | _, _ => False
  end.

(** The manual subtitles give the track list [tracks] through a listed
    language: the first of en-US, en-CA, en that is a key. *)
Definition listed_choice (subs : dict (list Track)) (tracks : list Track)
  : Prop :=
  exists pre lang post,
    subtitle_priorities = (pre ++ lang :: post)%list
    /\ Forall (fun l => lookup l subs = None) pre
    /\ lookup lang subs = Some tracks.

(** The manual subtitles give the track list [tracks] through a variant of
    English: no listed language is a key, and [tracks] stands under the
    first key, in the order of the dictionary, that starts with "en-". *)
Definition variant_choice (subs : dict (list Track)) (tracks : list Track)
  : Prop :=
  exists pre lang post,
    subs = (pre ++ (lang, tracks) :: post)%list
    /\ Forall (fun l => lookup l subs = None) subtitle_priorities
    /\ Forall (fun kv => startswith (fst kv) "en-" = false) pre
    /\ startswith lang "en-" = true.

(** ** Decimal strings *)

Module DigitFacts.

Lemma all_chars_app P (a b : string) :
  all_chars P (a ++ b) = all_chars P a && all_chars P b.
Proof.
  induction a as [| c a IH]; simpl; [reflexivity |].
  now rewrite IH, andb_assoc.
Qed.

Lemma all_chars_impl (P R : ascii -> bool) (s : string) :
  (forall c, P c = true -> R c = true) ->
  all_chars P s = true -> all_chars R s = true.
Proof.
  intros HPR. induction s as [| c s IH]; simpl; [reflexivity |].
  rewrite !andb_true_iff. intros [Hc Hs]. auto.
Qed.

Lemma digit_not (d : ascii) (c : ascii) :
  is_digit d = false -> is_digit c = true -> Ascii.eqb c d = false.
Proof.
  intros Hd Hc. destruct (Ascii.eqb_spec c d) as [-> |]; congruence.
Qed.

Lemma digit_not_space (c : ascii) : is_digit c = true -> is_space c = false.
Proof.
  unfold is_digit, is_space. generalize (nat_of_ascii c) as n. intros n.
  rewrite andb_true_iff, !Nat.leb_le. intros [H1 H2].
  apply orb_false_iff; split; apply andb_false_iff.
  - right. apply Nat.leb_gt. lia.
  - right. apply Nat.leb_gt. lia.
Qed.

Lemma zeros_digits (n : nat) : digits_only (zeros n) = true.
Proof. induction n; simpl; [reflexivity | exact IHn]. Qed.

Lemma string_of_uint_digits (d : Decimal.uint) :
  digits_only (NilEmpty.string_of_uint d) = true.
Proof. induction d; simpl; auto. Qed.

Lemma dec_digits (n : Z) : digits_only (dec n) = true.
Proof.
  unfold dec, NilZero.string_of_uint.
  destruct (N.to_uint (Z.to_N n)); try reflexivity;
    apply (string_of_uint_digits (_ _)).
Qed.

Lemma zfill_digits (w : nat) (s : string) :
  digits_only s = true -> digits_only (zfill w s) = true.
Proof.
  intros H. unfold zfill, digits_only. rewrite all_chars_app.
  fold digits_only. now rewrite zeros_digits, H.
Qed.

Lemma dec_nonempty (n : Z) : dec n <> "".
Proof.
  unfold dec, NilZero.string_of_uint.
  destruct (N.to_uint (Z.to_N n)); simpl; discriminate.
Qed.

(** *** The value of a run of digits *)

Lemma uint_of_string_zeros (n : nat) (s : string) (d : Decimal.uint) :
  NilEmpty.uint_of_string s = Some d ->
  exists d', NilEmpty.uint_of_string (zeros n ++ s) = Some d'
             /\ N.of_uint d' = N.of_uint d.
Proof.
  intros H. induction n as [| n (d' & Hd' & Hv)]; simpl.
  - exists d. auto.
  - exists (Decimal.D0 d'). rewrite Hd'. split; [reflexivity | exact Hv].
Qed.

Lemma uint_of_string_dec (n : Z) :
  0 <= n ->
  exists d, NilEmpty.uint_of_string (dec n) = Some d
            /\ Z.of_N (N.of_uint d) = n.
Proof.
  intros Hn. unfold dec, NilZero.string_of_uint.
  pose proof (DecimalN.Unsigned.of_to (Z.to_N n)) as Hof.
  destruct (N.to_uint (Z.to_N n)) as [| u | u | u | u | u | u | u | u | u | u] eqn:Hu.
  1: { exists (Decimal.D0 Decimal.Nil). split; [reflexivity |].
       simpl in Hof. simpl. lia. }
  all: eexists; split; [apply NilEmpty.usu |]; rewrite Hof; lia.
Qed.

Lemma digits_value_zfill (w : nat) (n : Z) :
  0 <= n -> digits_value (zfill w (dec n)) = Some n.
Proof.
  intros Hn. destruct (uint_of_string_dec n Hn) as (d & Hd & Hv).
  destruct (uint_of_string_zeros (w - length (dec n)) _ _ Hd) as (d' & Hd' & Hv').
  unfold digits_value, zfill. rewrite Hd', Hv', Hv. reflexivity.
Qed.

(** *** Widths *)

Lemma length_app (a b : string) :
  length (a ++ b) = (length a + length b)%nat.
Proof. induction a; simpl; auto. Qed.

Lemma length_zeros (n : nat) : length (zeros n) = n.
Proof. induction n; simpl; auto. Qed.

Lemma length_zfill (w : nat) (s : string) :
  length (zfill w s) = Nat.max w (length s).
Proof. unfold zfill. rewrite length_app, length_zeros. lia. Qed.

Lemma length_dec_below_1000 (n : Z) :
  0 <= n < 1000 -> (length (dec n) <= 3)%nat.
Proof.
  intros Hn.
  assert (Hall : forallb (fun i => (length (dec (Z.of_nat i)) <=? 3)%nat)
                   (seq 0 1000) = true) by (vm_compute; reflexivity).
  rewrite forallb_forall in Hall.
  specialize (Hall (Z.to_nat n)).
  rewrite Z2Nat.id in Hall by lia.
  apply Nat.leb_le, Hall, in_seq. lia.
Qed.

Lemma length_fmt_03d (n : Z) : 0 <= n < 1000 -> length (fmt_03d n) = 3%nat.
Proof.
  intros Hn. unfold fmt_03d. rewrite length_zfill.
  pose proof (length_dec_below_1000 n Hn). lia.
Qed.

End DigitFacts.

(** ** Splitting and parsing the formatter's output *)

Module ParseFacts.

Import DigitFacts.

Lemma split_without (sep : ascii) (s : string) :
  all_chars (is_not sep) s = true -> split sep s = [s].
Proof.
  induction s as [| c s IH]; simpl; [reflexivity |].
  unfold is_not at 1. rewrite andb_true_iff, negb_true_iff.
  intros [-> Hs]. now rewrite IH.
Qed.

Lemma split_app (sep : ascii) (a b : string) :
  all_chars (is_not sep) a = true ->
  split sep (a ++ String sep b) = a :: split sep b.
Proof.
  induction a as [| c a IH]; simpl.
  - intros _. now rewrite Ascii.eqb_refl.
  - unfold is_not at 1. rewrite andb_true_iff, negb_true_iff.
    intros [-> Ha]. now rewrite IH.
Qed.

Lemma digits_without (sep : ascii) (s : string) :
  is_digit sep = false ->
  digits_only s = true -> all_chars (is_not sep) s = true.
Proof.
  intros Hsep. apply all_chars_impl. intros c Hc. unfold is_not.
  now rewrite (digit_not sep c Hsep Hc).
Qed.

Lemma lstrip_id (s : string) :
  all_chars (fun c => negb (is_space c)) s = true -> lstrip s = s.
Proof.
  destruct s as [| c s]; simpl; [reflexivity |].
  rewrite andb_true_iff, negb_true_iff. now intros [-> _].
Qed.

Lemma rstrip_id (s : string) :
  all_chars (fun c => negb (is_space c)) s = true -> rstrip s = s.
Proof.
  induction s as [| c s IH]; simpl; [reflexivity |].
  rewrite andb_true_iff, negb_true_iff. intros [Hc Hs].
  rewrite (IH Hs), Hc. now destruct s.
Qed.

Lemma strip_id (s : string) :
  all_chars (fun c => negb (is_space c)) s = true -> strip s = s.
Proof.
  intros H. unfold strip. rewrite (lstrip_id s H). now apply rstrip_id.
Qed.

Lemma digits_no_space (s : string) :
  digits_only s = true ->
  all_chars (fun c => negb (is_space c)) s = true.
Proof.
  apply all_chars_impl. intros c Hc. now rewrite (digit_not_space c Hc).
Qed.

(** A non-empty run of digits does not start with a sign. *)
Lemma unsigned_body (s : string) :
  digits_only s = true -> s <> "" ->
  match s with
  | String "-" r => (true, r)
  | String "+" r => (false, r)
  | _ => (false, s)
  end = (false, s).
Proof.
  destruct s as [| c s]; [congruence |]. intros Hd _.
  change (is_digit c && digits_only s = true) in Hd.
  apply andb_true_iff in Hd as [Hc _].
  destruct c as [[] [] [] [] [] [] [] []]; try reflexivity; discriminate.
Qed.

Lemma float_of_digits (s : string) (n : Z) :
  digits_only s = true -> s <> "" -> digits_value s = Some n ->
  float_of_string s = Some (inject_Z n).
Proof.
  intros Hd Hne Hv. unfold float_of_string.
  rewrite (strip_id s (digits_no_space s Hd)).
  rewrite (unsigned_body s Hd Hne).
  rewrite (split_without "." s) by (now apply digits_without).
  destruct s as [| c s]; [congruence |].
  simpl length. simpl Nat.eqb. now rewrite Hv.
Qed.

Lemma float_of_decimal (i f : string) (n m : Z) :
  digits_only i = true -> i <> "" -> digits_only f = true ->
  digits_value i = Some n -> digits_value f = Some m ->
  float_of_string (i ++ "." ++ f)
  = Some (inject_Z n + inject_Z m / inject_Z (10 ^ Z.of_nat (length f)))%Q.
Proof.
  intros Hi Hne Hf Hn Hm. unfold float_of_string.
  assert (Hsp : all_chars (fun c => negb (is_space c)) (i ++ "." ++ f) = true).
  { rewrite all_chars_app. simpl.
    now rewrite (digits_no_space i Hi), (digits_no_space f Hf). }
  rewrite (strip_id _ Hsp).
  assert (Hbody : match i ++ "." ++ f with
                  | String "-" r => (true, r)
                  | String "+" r => (false, r)
                  | _ => (false, i ++ "." ++ f)
                  end = (false, i ++ "." ++ f)).
  { destruct i as [| c i]; [congruence |].
    change (is_digit c && digits_only i = true) in Hi.
    apply andb_true_iff in Hi as [Hc _]. cbn [append].
    destruct c as [[] [] [] [] [] [] [] []]; try reflexivity; discriminate. }
  rewrite Hbody.
  change (i ++ "." ++ f) with (i ++ String "." f).
  rewrite split_app by (now apply digits_without).
  rewrite (split_without "." f) by (now apply digits_without).
  destruct i as [| c i]; [congruence |].
  simpl length. simpl Nat.eqb. now rewrite Hn, Hm.
Qed.

End ParseFacts.

(** ** Seconds to timestamp and back *)

Module TimestampFacts.

Import DigitFacts ParseFacts.

Local Open Scope Q_scope.

Lemma floordiv_comp (x x' y : Q) : x == x' -> floordiv x y = floordiv x' y.
Proof. intros H. unfold floordiv. now rewrite H. Qed.

Lemma pymod_comp (x x' y : Q) : x == x' -> pymod x y == pymod x' y.
Proof.
  intros H. unfold pymod. rewrite (floordiv_comp x x' y H). now rewrite H.
Qed.

Lemma round_half_even_comp (x x' : Q) :
  x == x' -> round_half_even x = round_half_even x'.
Proof.
  intros H. unfold round_half_even. cbv zeta.
  rewrite (Qfloor_comp x x' H).
  assert (Hc : Qcompare (x - inject_Z (Qfloor x')) (1 # 2)
               = Qcompare (x' - inject_Z (Qfloor x')) (1 # 2))
    by now rewrite H.
  now rewrite Hc.
Qed.

Lemma round_half_even_Z (n : Z) : round_half_even (inject_Z n) = n.
Proof.
  unfold round_half_even. rewrite Qfloor_Z.
  assert (H : Qcompare (inject_Z n - inject_Z n) (1 # 2) = Lt).
  { assert (H0 : inject_Z n - inject_Z n == 0) by ring. now rewrite H0. }
  cbv zeta. now rewrite H.
Qed.

(** Floor division and remainder of [k] thousandths by a whole number. *)
Lemma floordiv_ms (k : Z) (d n : positive) :
  floordiv (k # d) (Zpos n # 1) = (k / Zpos (d * n))%Z.
Proof.
  unfold floordiv, Qdiv, Qinv, Qmult, Qfloor. simpl.
  now rewrite Z.mul_1_r.
Qed.

Lemma pymod_ms (k : Z) (d n : positive) :
  pymod (k # d) (Zpos n # 1) == (k mod Zpos (d * n)) # d.
Proof.
  unfold pymod. rewrite floordiv_ms, Z.mod_eq by discriminate.
  generalize (k / Z.pos (d * n))%Z as q. intros q.
  unfold Qeq, Qminus, Qplus, Qopp, Qmult, inject_Z. cbn [Qnum Qden].
  rewrite !Pos2Z.inj_mul. ring.
Qed.

Lemma mod_hour_minute (k : Z) :
  ((k mod 3600000) mod 60000 = k mod 60000)%Z.
Proof. apply Z.mod_mod_divide. exists 60%Z. reflexivity. Qed.

Lemma mod_minute_second (k : Z) :
  ((k mod 60000) mod 1000 = k mod 1000)%Z.
Proof. apply Z.mod_mod_divide. exists 60%Z. reflexivity. Qed.

Lemma thousandths (t : Z) : (t # 1000) * 1000 == inject_Z t.
Proof.
  unfold Qeq, Qmult, inject_Z. cbn [Qnum Qden].
  change (Z.pos (1000 * 1)) with 1000%Z. ring.
Qed.

Lemma fmt_02d_nonneg (z : Z) : (0 <= z)%Z -> fmt_02d z = zfill 2 (dec z).
Proof.
  intros H. unfold fmt_02d. now destruct (Z.ltb_spec z 0); [lia |].
Qed.

Lemma zfill_app_tail (w n : nat) (a b : string) :
  length b = n -> (zfill (w + n) (a ++ b) = zfill w a ++ b)%string.
Proof.
  intros Hb. unfold zfill. rewrite length_app, Hb.
  replace (w + n - (length a + n))%nat with (w - length a)%nat by lia.
  induction (zeros (w - length a)) as [| c z IH]; simpl;
    [reflexivity | now rewrite IH].
Qed.

(** The seconds field: two digits, a point, three digits. *)
Lemma fmt_06_3f_ms (x : Q) (t : Z) :
  (0 <= t)%Z -> x == t # 1000 ->
  fmt_06_3f x = zfill 2 (dec (t / 1000)) ++ "." ++ fmt_03d (t mod 1000).
Proof.
  intros Ht Hx. unfold fmt_06_3f.
  assert (Hr : round_half_even (x * 1000) = t).
  { rewrite (round_half_even_comp _ (inject_Z t)).
    - apply round_half_even_Z.
    - rewrite Hx. apply thousandths. }
  rewrite Hr, Z.abs_eq by exact Ht.
  destruct (Z.ltb_spec t 0) as [| _]; [lia |].
  fold (fmt_03d (t mod 1000)).
  apply (zfill_app_tail 2 4).
  simpl. now rewrite length_fmt_03d by (apply Z.mod_pos_bound; lia).
Qed.

Lemma seconds_to_timestamp_ms (k : Z) :
  (0 <= k)%Z ->
  _seconds_to_timestamp (k # 1000)
  = zfill 2 (dec (k / 3600000)) ++ ":"
    ++ zfill 2 (dec (k mod 3600000 / 60000)) ++ ":"
    ++ zfill 2 (dec (k mod 60000 / 1000)) ++ "."
    ++ fmt_03d (k mod 1000).
Proof.
  intros Hk. unfold _seconds_to_timestamp.
  pose proof (pymod_ms k 1000 3600) as Hrem.
  change (Z.pos (1000 * 3600)) with 3600000%Z in Hrem.
  rewrite (floordiv_ms k 1000 3600).
  change (Z.pos (1000 * 3600)) with 3600000%Z.
  rewrite (floordiv_comp _ _ 60 Hrem), (floordiv_ms _ 1000 60).
  change (Z.pos (1000 * 60)) with 60000%Z.
  assert (Hsec : pymod (pymod (k # 1000) 3600) 60 == (k mod 60000) # 1000).
  { rewrite (pymod_comp _ _ 60 Hrem), (pymod_ms _ 1000 60).
    change (Z.pos (1000 * 60)) with 60000%Z.
    now rewrite mod_hour_minute. }
  rewrite (fmt_06_3f_ms _ (k mod 60000)); [| apply Z.mod_pos_bound; lia | exact Hsec].
  rewrite mod_minute_second.
  rewrite !fmt_02d_nonneg.
  - reflexivity.
  - apply Z.div_pos; [apply Z.mod_pos_bound |]; lia.
  - apply Z.div_pos; lia.
Qed.

Lemma float_of_zfill (w : nat) (n : Z) :
  (0 <= n)%Z -> float_of_string (zfill w (dec n)) = Some (inject_Z n).
Proof.
  intros Hn. apply float_of_digits.
  - apply zfill_digits, dec_digits.
  - unfold zfill. pose proof (dec_nonempty n).
    destruct (zeros _); simpl; [assumption | discriminate].
  - now apply digits_value_zfill.
Qed.

Lemma zfill_nonempty (w : nat) (n : Z) : zfill w (dec n) <> "".
Proof.
  unfold zfill. pose proof (dec_nonempty n).
  destruct (zeros _); simpl; [assumption | discriminate].
Qed.

Lemma timestamp_to_seconds_fields (h m s ms : Z) :
  (0 <= h)%Z -> (0 <= m)%Z -> (0 <= s)%Z -> (0 <= ms < 1000)%Z ->
  _timestamp_to_seconds
    (zfill 2 (dec h) ++ ":" ++ zfill 2 (dec m) ++ ":"
     ++ zfill 2 (dec s) ++ "." ++ fmt_03d ms)
  = Ok (inject_Z h * 3600 + inject_Z m * 60
        + (inject_Z s + inject_Z ms / 1000)).
Proof.
  intros Hh Hm Hs Hms. unfold _timestamp_to_seconds.
  change (zfill 2 (dec h) ++ ":" ++ ?r)%string
    with (zfill 2 (dec h) ++ String ":" r)%string.
  rewrite split_app
    by (apply digits_without; [reflexivity | apply zfill_digits, dec_digits]).
  change (zfill 2 (dec m) ++ ":" ++ ?r)%string
    with (zfill 2 (dec m) ++ String ":" r)%string.
  rewrite split_app
    by (apply digits_without; [reflexivity | apply zfill_digits, dec_digits]).
  rewrite split_without.
  2: { rewrite all_chars_app. apply andb_true_iff. split.
       - apply digits_without; [reflexivity | apply zfill_digits, dec_digits].
       - simpl. apply digits_without; [reflexivity |].
         apply zfill_digits, dec_digits. }
  cbn [index nth_error bind]. unfold to_float.
  rewrite (float_of_zfill 2 h Hh), (float_of_zfill 2 m Hm).
  rewrite (float_of_decimal _ _ s ms).
  - rewrite length_fmt_03d by exact Hms. reflexivity.
  - apply zfill_digits, dec_digits.
  - apply zfill_nonempty.
  - apply zfill_digits, dec_digits.
  - apply digits_value_zfill, Hs.
  - apply digits_value_zfill. lia.
Qed.

Lemma fmt_06_3f_comp (x x' : Q) : x == x' -> fmt_06_3f x = fmt_06_3f x'.
Proof.
  intros H. unfold fmt_06_3f.
  rewrite (round_half_even_comp (x * 1000) (x' * 1000)); [reflexivity |].
  now rewrite H.
Qed.

Lemma seconds_to_timestamp_comp (x x' : Q) :
  x == x' -> _seconds_to_timestamp x = _seconds_to_timestamp x'.
Proof.
  intros H. unfold _seconds_to_timestamp.
  pose proof (pymod_comp x x' 3600 H) as Hrem.
  rewrite (floordiv_comp x x' 3600 H).
  rewrite (floordiv_comp _ _ 60 Hrem).
  now rewrite (fmt_06_3f_comp _ _ (pymod_comp _ _ 60 Hrem)).
Qed.

(** Hours, minutes, seconds and milliseconds add up to the whole. *)
Lemma fields_value (k : Z) :
  inject_Z (k / 3600000) * 3600 + inject_Z (k mod 3600000 / 60000) * 60
  + (inject_Z (k mod 60000 / 1000) + inject_Z (k mod 1000) / 1000)
  == k # 1000.
Proof.
  assert (Hdec : (k = (k / 3600000) * 3600000 + (k mod 3600000 / 60000) * 60000
                      + (k mod 60000 / 1000) * 1000 + k mod 1000)%Z).
  { pose proof (Z.div_mod k 3600000 ltac:(lia)) as H1.
    pose proof (Z.div_mod (k mod 3600000) 60000 ltac:(lia)) as H2.
    pose proof (Z.div_mod (k mod 60000) 1000 ltac:(lia)) as H3.
    rewrite mod_hour_minute in H2. rewrite mod_minute_second in H3. lia. }
  rewrite (Qmake_Qdiv k 1000). rewrite Hdec at 5.
  rewrite !inject_Z_plus, !inject_Z_mult. field.
Qed.

End TimestampFacts.



(** ** The short-duplicate rule *)

Lemma Qltb_lt (x y : Q) : Qltb x y = true <-> (x < y)%Q.
Proof.
  unfold Qltb. rewrite negb_true_iff, <- not_true_iff_false, Qle_bool_iff.
  split; [apply Qnot_le_lt | apply Qlt_not_le].
Qed.

(** The test of lines 217-218 compares [start - end], not [end - start],
    with 0.15. *)
Lemma short_duplicate_iff (previous_subtitle subtitle : Caption) :
  short_duplicate previous_subtitle subtitle = true <->
  (_ts_to_secs (start_time subtitle) - _ts_to_secs (end_time subtitle)
   < 15 # 100)%Q
  /\ contains (text subtitle) (text previous_subtitle) = true.
Proof.
  unfold short_duplicate. now rewrite andb_true_iff, Qltb_lt.
Qed.

(** Whenever the test holds for a cue whose stripped text is not empty, the
    iteration yields nothing and only moves the end of the previous cue. *)
Lemma iteration_short_duplicate (previous_subtitle subtitle : Caption) :
  text (stripped subtitle) <> "" ->
  short_duplicate previous_subtitle (stripped subtitle) = true ->
  iteration previous_subtitle subtitle
  = (p <- set_end (get_end subtitle) previous_subtitle ;; Ok ([], p)).
Proof.
  intros Hne Hd. unfold iteration. fold (stripped subtitle). rewrite Hd.
  destruct (text (stripped subtitle)) eqn:Et; [congruence |]. reflexivity.
Qed.

(** C1, at a failing input.  The cue [c] lasts five seconds, so its duration
    is not below 0.15 s, and its text is a substring of the pending text; the
    merger all the same takes the short-duplicate branch: it yields nothing,
    moves the end of the pending cue to the end of [c] and drops [c]. *)
Theorem short_duplicate_fires_on_long_cue :
  let pending := cue 0 2000 "one two three four" in
  let c := cue 2000 7000 "two three four" in
  ~ (_ts_to_secs (end_time c) - _ts_to_secs (start_time c) < 15 # 100)%Q
  /\ short_duplicate pending c = true
  /\ iteration pending c = Ok ([], cue 0 7000 "one two three four")
  /\ dedupe_yt_captions [pending; c]
     = Ok [Some (cue 0 7000 "one two three four")].
Proof.
  cbv zeta. split; [| split; [| split]].
  - vm_compute. discriminate.
  - vm_compute. reflexivity.
  - vm_compute. reflexivity.
  - vm_compute. reflexivity.
Qed.

(** ** Overlap *)

(** C2, at a failing input.  The second cue is malformed (it starts at 10 s
    and ends at 3 s).  The overlap test sees its start before the swap, finds
    no overlap with the pending cue ending at 5 s, and the swap then makes it
    start at 3 s: the two cues the merger yields overlap. *)
Theorem swapped_cue_overlaps_previous :
  let a := cue 0 5000 "one two three" in
  let b := cue 3000 10000 "four five six" in
  dedupe_yt_captions [cue 0 5000 "one two three"; cue 10000 3000 "four five six"]
  = Ok [Some a; Some b]
  /\ ~ (_ts_to_secs (end_time a) <= _ts_to_secs (start_time b))%Q.
Proof.
  cbv zeta. split.
  - vm_compute. reflexivity.
  - vm_compute. intros H. apply H. reflexivity.
Qed.

(** ** Where the overlap correction does work *)

Module MergerFacts.

Import DigitFacts ParseFacts TimestampFacts.

Local Open Scope Q_scope.

(** A timestamp is a whole number of milliseconds. *)
Lemma ts_to_secs_ms (t : Timestamp) :
  _ts_to_secs t == (in_seconds t * 1000 + milliseconds t) # 1000.
Proof.
  unfold _ts_to_secs. rewrite (Qmake_Qdiv _ 1000).
  rewrite inject_Z_plus, inject_Z_mult. field.
Qed.

Lemma ts_to_secs_at_ms (k : Z) : _ts_to_secs (at_ms k) == k # 1000.
Proof.
  unfold _ts_to_secs, in_seconds, at_ms. cbn [hours minutes seconds milliseconds].
  rewrite <- (fields_value k).
  rewrite !inject_Z_plus, !inject_Z_mult. ring.
Qed.

Lemma short_number_zfill (n : Z) (v : Z) :
  (0 <= n)%Z -> short_number (zfill 2 (dec n)) = Some v -> v = n.
Proof.
  intros Hn. unfold short_number. rewrite (digits_value_zfill 2 n Hn).
  destruct (_ && _); congruence.
Qed.

(** What [Timestamp.from_string] reads from the formatter's output, when it
    accepts it, is the timestamp of the same number of milliseconds. *)
Lemma from_string_formatted (k : Z) (t : Timestamp) :
  (0 <= k)%Z ->
  Timestamp_from_string (_seconds_to_timestamp (k # 1000)) = Ok t ->
  t = at_ms k.
Proof.
  intros Hk. rewrite (seconds_to_timestamp_ms k Hk).
  pose proof (Z.mod_pos_bound k 1000 ltac:(lia)) as Hms.
  pose proof (Z.mod_pos_bound k 60000 ltac:(lia)) as Hsec.
  pose proof (Z.mod_pos_bound k 3600000 ltac:(lia)) as Hmin.
  assert (Hh : (0 <= k / 3600000)%Z) by (apply Z.div_pos; lia).
  assert (Hm : (0 <= k mod 3600000 / 60000)%Z) by (apply Z.div_pos; lia).
  assert (Hs : (0 <= k mod 60000 / 1000)%Z) by (apply Z.div_pos; lia).
  unfold Timestamp_from_string.
  change (zfill 2 (dec (k / 3600000)) ++ ":" ++ ?r)%string
    with (zfill 2 (dec (k / 3600000)) ++ String ":" r)%string.
  rewrite split_app
    by (apply digits_without; [reflexivity | apply zfill_digits, dec_digits]).
  change (zfill 2 (dec (k mod 3600000 / 60000)) ++ ":" ++ ?r)%string
    with (zfill 2 (dec (k mod 3600000 / 60000)) ++ String ":" r)%string.
  rewrite split_app
    by (apply digits_without; [reflexivity | apply zfill_digits, dec_digits]).
  rewrite split_without.
  2: { rewrite all_chars_app. apply andb_true_iff. split.
       - apply digits_without; [reflexivity | apply zfill_digits, dec_digits].
       - simpl. apply digits_without; [reflexivity |].
         apply zfill_digits, dec_digits. }
  destruct (short_number (zfill 2 (dec (k / 3600000)))) as [h |] eqn:Eh;
    [| discriminate].
  destruct (short_number (zfill 2 (dec (k mod 3600000 / 60000)))) as [m |] eqn:Em;
    [| discriminate].
  apply short_number_zfill in Eh; [| exact Hh].
  apply short_number_zfill in Em; [| exact Hm].
  change (zfill 2 (dec (k mod 60000 / 1000)) ++ "." ++ ?r)%string
    with (zfill 2 (dec (k mod 60000 / 1000)) ++ String "." r)%string.
  rewrite split_app
    by (apply digits_without; [reflexivity | apply zfill_digits, dec_digits]).
  rewrite split_without
    by (apply digits_without; [reflexivity | apply zfill_digits, dec_digits]).
  destruct (short_number (zfill 2 (dec (k mod 60000 / 1000)))) as [s |] eqn:Es;
    [| discriminate].
  apply short_number_zfill in Es; [| exact Hs].
  rewrite (length_fmt_03d _ Hms). cbn [Nat.eqb].
  unfold fmt_03d. rewrite (digits_value_zfill 3 _ (proj1 Hms)).
  destruct (_ || _); [discriminate |].
  intros [= <-]. subst. reflexivity.
Qed.

Lemma set_end_formatted (q : Q) (k : Z) (p p' : Caption) :
  (0 <= k)%Z -> q == k # 1000 ->
  set_end (_seconds_to_timestamp q) p = Ok p' ->
  start_time p' = start_time p /\ _ts_to_secs (end_time p') == q.
Proof.
  intros Hk Hq. unfold set_end.
  rewrite (seconds_to_timestamp_comp q _ Hq).
  destruct (Timestamp_from_string _) as [t |] eqn:Et; [| discriminate].
  apply (from_string_formatted k t Hk) in Et. subst t.
  cbn [bind]. intros [= <-]. cbn [start_time end_time].
  split; [reflexivity |]. rewrite Hq. apply ts_to_secs_at_ms.
Qed.

Lemma set_end_start (v : string) (p p' : Caption) :
  set_end v p = Ok p' -> start_time p' = start_time p.
Proof.
  unfold set_end. destruct (Timestamp_from_string v); [| discriminate].
  cbn [bind]. now intros [= <-].
Qed.

(** The time the overlap correction writes is a whole, non-negative number
    of milliseconds, not after the start of the incoming cue. *)
Lemma new_time_ms (t : Timestamp) :
  0 <= _ts_to_secs t ->
  exists k, (0 <= k)%Z
            /\ max0 (_ts_to_secs t - (1 # 1000)) == k # 1000
            /\ k # 1000 <= _ts_to_secs t.
Proof.
  intros H0. pose proof (ts_to_secs_ms t) as Hms.
  set (K := (in_seconds t * 1000 + milliseconds t)%Z) in *.
  unfold max0. destruct (Qltb _ 0) eqn:Hlt.
  - exists 0%Z. split; [lia |]. split; [reflexivity |].
    assert (Hz : 0 # 1000 == 0) by reflexivity. now rewrite Hz.
  - exists (K - 1)%Z.
    assert (Hge : 0 <= _ts_to_secs t - (1 # 1000)).
    { apply Qnot_lt_le. intros Hc. apply Qltb_lt in Hc. congruence. }
    assert (Heq : _ts_to_secs t - (1 # 1000) == (K - 1) # 1000).
    { rewrite Hms. unfold Qeq, Qminus, Qplus, Qopp. cbn [Qnum Qden].
      change (Z.pos (1000 * 1000)) with 1000000%Z. lia. }
    split; [| split].
    + rewrite Heq in Hge. unfold Qle in Hge. cbn [Qnum Qden] in Hge. lia.
    + exact Heq.
    + rewrite <- Heq. rewrite <- (Qplus_0_r (_ts_to_secs t)) at 2.
      apply Qplus_le_r. discriminate.
Qed.

Lemma line_rules_timing (p c : Caption) (o : line_outcome) :
  line_rules p c = Ok o ->
  match o with
  | Folded p1 => start_time p1 = start_time p
  | Kept _ c2 => start_time c2 = start_time c /\ end_time c2 = end_time c
  end.
Proof.
  unfold line_rules.
  destruct (String.eqb _ _).
  - destruct (_ =? 1)%nat; [destruct (_ && _) |];
      intros [= <-]; split; reflexivity.
  - destruct (_ <=? 2)%nat.
    + destruct (set_end (get_end c) p) as [p1 |] eqn:E; [| discriminate].
      cbn [bind]. apply set_end_start in E.
      destruct (text c); [discriminate |].
      intros [= <-]. exact E.
    + intros [= <-]. split; reflexivity.
Qed.

(** One iteration on a well-timed incoming cue [c]: either nothing is
    yielded, or the previous cue is yielded with its end not after the start
    of [c], which becomes the previous cue. *)
Lemma iteration_timing (p c p' : Caption) (yl : list Caption) :
  well_timed c ->
  iteration p c = Ok (yl, p') ->
  (yl = [] /\ (start_time p' = start_time p \/ start_time p' = start_time c))
  \/ (exists a, yl = [a] /\ start_time a = start_time p
                /\ start_time p' = start_time c
                /\ _ts_to_secs (end_time a) <= _ts_to_secs (start_time c)).
Proof.
  intros [H0 Hlt]. unfold iteration.
  set (c1 := set_text (strip (text c)) c).
  destruct (length (text c1) =? 0)%nat.
  { intros [= <- <-]. left. auto. }
  destruct (short_duplicate p c1).
  { destruct (set_end (get_end c1) p) as [p1 |] eqn:E; [| discriminate].
    cbn [bind]. intros [= <- <-]. left. split; [reflexivity |].
    left. exact (set_end_start _ _ _ E). }
  destruct (line_rules p c1) as [o |] eqn:El; [| discriminate].
  apply line_rules_timing in El. cbn [bind].
  destruct o as [p1 | sw c2].
  { intros [= <- <-]. left. auto. }
  destruct El as [Es Ee]. rewrite Es, Ee.
  change (start_time c1) with (start_time c).
  change (end_time c1) with (end_time c).
  assert (Hswap : Qle_bool (_ts_to_secs (end_time c)) (_ts_to_secs (start_time c))
                  = false).
  { apply not_true_iff_false. rewrite Qle_bool_iff. now apply Qlt_not_le. }
  rewrite Hswap.
  destruct (Qle_bool (_ts_to_secs (start_time c)) (_ts_to_secs (end_time p)))
    eqn:Eo.
  - destruct (set_end _ p) as [p2 |] eqn:E2; [| discriminate].
    cbn [bind]. intros [= <- <-].
    destruct (new_time_ms (start_time c) H0) as (k & Hk & Hnew & Hle).
    destruct (set_end_formatted _ k p p2 Hk Hnew E2) as [Hst Hend].
    destruct sw; [left; auto |].
    right. exists p2. repeat split; auto.
    rewrite Hend, Hnew. exact Hle.
  - cbn [bind]. intros [= <- <-].
    destruct sw; [left; auto |].
    right. exists p. repeat split; auto.
    apply Qlt_le_weak, Qnot_le_lt. rewrite <- Qle_bool_iff. congruence.
Qed.

Lemma ordered_after_weaken (lo lo' : Q) (rest : list Caption) :
  lo' <= lo -> ordered_after lo rest -> ordered_after lo' rest.
Proof.
  destruct rest as [| c rest]; simpl; [auto |].
  intros Hle (H1 & H2 & H3).
  split; [now apply Qle_trans with lo | split; assumption].
Qed.

Lemma dedupe_from_no_overlap (rest : list Caption) :
  forall (p : Caption) (out : list (option Caption)),
    ordered_after (_ts_to_secs (start_time p)) rest ->
    dedupe_from (Some p) rest = Ok out ->
    exists ys, out = map Some ys /\ no_overlap ys
               /\ match ys with
                  | y :: _ => _ts_to_secs (start_time p)
                              <= _ts_to_secs (start_time y)
                  | [] => True
                  end.
Proof.
  induction rest as [| c rest IH]; intros p out Hord; cbn [dedupe_from].
  - intros [= <-]. exists [p]. repeat split. apply Qle_refl.
  - destruct Hord as (Hpc & Hwt & Hrest).
    destruct (iteration p c) as [[yl p'] |] eqn:Eit; [| discriminate].
    cbn [bind].
    destruct (dedupe_from (Some p') rest) as [out' |] eqn:Eout; [| discriminate].
    cbn [bind]. intros [= <-].
    destruct (iteration_timing p c p' yl Hwt Eit)
      as [[-> [Hs | Hs]] | (a & -> & Hsa & Hs & Hea)].
    + destruct (IH p' out') as (ys & -> & Hno & Hhd); [| exact Eout |].
      * rewrite Hs. now apply ordered_after_weaken with (_ts_to_secs (start_time c)).
      * exists ys. repeat split; auto. now rewrite <- Hs.
    + destruct (IH p' out') as (ys & -> & Hno & Hhd); [| exact Eout |].
      * now rewrite Hs.
      * exists ys. repeat split; auto. rewrite Hs in Hhd.
        destruct ys as [| y ys]; [exact I |].
        now apply Qle_trans with (_ts_to_secs (start_time c)).
    + destruct (IH p' out') as (ys & -> & Hno & Hhd); [| exact Eout |].
      * now rewrite Hs.
      * exists (a :: ys). rewrite Hs in Hhd. repeat split.
        -- destruct ys as [| y ys]; [exact I |]. split; [| exact Hno].
           now apply Qle_trans with (_ts_to_secs (start_time c)).
        -- rewrite Hsa. apply Qle_refl.
Qed.

(** When the cues after the first come in the order of their starts and each
    starts at or after zero and before its own end, the cues the merger
    yields, if it yields any, do not overlap. *)
Lemma ordered_cues_do_not_overlap (first : Caption) (rest : list Caption)
  (out : list (option Caption)) :
  ordered_after (_ts_to_secs (start_time first)) rest ->
  dedupe_yt_captions (first :: rest) = Ok out ->
  exists ys, out = map Some ys /\ no_overlap ys.
Proof.
  intros Hord Hout.
  destruct (dedupe_from_no_overlap rest first out Hord Hout) as (ys & ? & ? & _).
  exists ys. auto.
Qed.

End MergerFacts.

(** ** The two-cue scenario *)

(** C3 as stated fails: the output is not the cue (0.0, 2.0, "hello world"). *)
Lemma scenario_hello_not_hello_world :
  dedupe_yt_captions [cue 0 100 "hello"; cue 50 2000 "hello world"]
  <> Ok [Some (cue 0 2000 "hello world")].
Proof. vm_compute. discriminate. Qed.

(** C3, amended.  The second cue's text is not a substring of "hello" and its
    first line is not the pending cue's last line; it has two tokens, so it is
    folded into the pending cue: one cue (0.0, 2.0, "hello hello world"). *)
Theorem scenario_hello :
  dedupe_yt_captions [cue 0 100 "hello"; cue 50 2000 "hello world"]
  = Ok [Some (cue 0 2000 "hello hello world")].
Proof. vm_compute. reflexivity. Qed.

(** ** Empty text *)

(** C4, at two failing inputs.  The first cue seeds the pending cue without
    the emptiness test the later cues get, so a first cue of white space is
    yielded; and the line-continuation rule leaves the empty text when a
    one-line cue repeats the pending cue's last line. *)
Theorem merger_yields_empty_text :
  (exists c,
     dedupe_yt_captions [cue 0 1000 " "] = Ok [Some c]
     /\ collapsed_text c = "")
  /\ (exists a c b,
        dedupe_yt_captions
          [cue 0 1000 "a b c"; cue 5000 2000 "a b c"; cue 6000 7000 "d e f"]
        = Ok [Some a; Some c; Some b]
        /\ text c = "" /\ collapsed_text c = "").
Proof.
  split.
  - exists (cue 0 1000 " "). split; vm_compute; reflexivity.
  - exists (cue 0 1000 "a b c"), (cue 2000 5000 ""), (cue 6000 7000 "d e f").
    repeat split; vm_compute; reflexivity.
Qed.

(** ** Running the merger twice *)

(** C8 as stated fails.  The first pass strips the repeated line "line two"
    from the second cue and leaves it the text "hi"; on the second pass that
    cue has at most two tokens, so it is folded into its neighbour, whose
    text and end time change, and only one cue remains. *)
Lemma second_pass_merges :
  let input := [cue 0 2000 (lines2 "x y z" "line two");
                cue 2000 4000 (lines2 "line two" "hi")] in
  let first_pass := [cue 0 1999 (lines2 "x y z" "line two");
                     cue 2000 4000 "hi"] in
  dedupe_yt_captions input = Ok (map Some first_pass)
  /\ dedupe_yt_captions first_pass
     = Ok [Some (cue 0 4000 (lines2 "x y z" "line two hi"))].
Proof. cbv zeta. split; vm_compute; reflexivity. Qed.

(** What the second pass leaves alone is stated further down, once the
    merger is known to return on valid cues. *)

(** ** Empty input *)

Lemma dedupe_empty : dedupe_yt_captions [] = Ok [None].
Proof. reflexivity. Qed.

(** C6, at the failing input.  With no cue at all the merger yields the one
    value [None], and the segmenter raises AttributeError on reading its
    text: no empty segment list is returned. *)
Theorem parse_captions_no_cue_raises
  (from_string : string -> result (list Caption)) (content : string) :
  from_string content = Ok [] ->
  dedupe_yt_captions [] = Ok [None]
  /\ parse_captions from_string "vtt" content
     = Raise (AttributeError "'NoneType' object has no attribute 'text'").
Proof.
  intros H. split; [reflexivity |].
  unfold parse_captions. simpl. rewrite H. reflexivity.
Qed.

Lemma parse_captions_no_cue_raises_witness :
  (fun _ : string => Ok (@nil Caption)) "WEBVTT" = Ok []
  /\ parse_captions (fun _ => Ok []) "vtt" "WEBVTT"
     = Raise (AttributeError "'NoneType' object has no attribute 'text'").
Proof.
  split; [reflexivity |].
  apply (parse_captions_no_cue_raises (fun _ => Ok []) "WEBVTT"); reflexivity.
Defined.

(** A single cue of white space is not an empty input for the segmenter: it
    comes out as one segment with the empty text. *)
Lemma parse_captions_blank_cue
  (from_string : string -> result (list Caption)) (content : string) :
  from_string content = Ok [cue 0 1000 " "] ->
  exists seg,
    parse_captions from_string "vtt" content = Ok [seg]
    /\ seg_start seg = "00:00:00.000" /\ seg_end seg = "00:00:01.000"
    /\ separator seg = "" /\ seg_text seg = "".
Proof.
  intros H. unfold parse_captions. simpl negb. cbv iota. rewrite H.
  eexists. split; [vm_compute; reflexivity |].
  repeat split.
Qed.

(** ** Formats other than vtt *)

(** C10.  For every [ext] other than "vtt", [parse_captions] raises
    ValueError whatever the content and whatever the parser would do with it;
    the selector does return srt and ttml tracks, and for each of them
    [parse_captions] raises ValueError. *)
Theorem parse_captions_rejects_non_vtt :
  (forall (from_string : string -> result (list Caption)) (ext content : string),
      ext <> "vtt" ->
      parse_captions from_string ext content
      = Raise (ValueError ("Unsupported caption format: " ++ ext)))
  /\ (forall f, In f ["srt"; "ttml"] ->
        exists info track,
          get_captions_by_priority info = Some track
          /\ VideoExtractor.ext track = Some f
          /\ forall from_string content,
               parse_captions from_string f content
               = Raise (ValueError ("Unsupported caption format: " ++ f))).
Proof.
  assert (H : forall (from_string : string -> result (list Caption))
                     (ext content : string),
             ext <> "vtt" ->
             parse_captions from_string ext content
             = Raise (ValueError ("Unsupported caption format: " ++ ext))).
  { intros from_string ext content Hne. unfold parse_captions.
    destruct (String.eqb_spec ext "vtt") as [-> | _]; [now elim Hne |].
    reflexivity. }
  split; [exact H |].
  intros f Hf.
  exists (mkInfo (Some [("en", [mkTrack (Some "English") None (Some f) None])])
                 None),
         (mkTrack (Some "English") None (Some f) None).
  destruct Hf as [<- | [<- | []]];
    (split; [reflexivity | split; [reflexivity |]]);
    intros from_string content; apply H; discriminate.
Qed.

Lemma parse_captions_rejects_non_vtt_witness :
  "srt" <> "vtt"
  /\ parse_captions (fun _ => Ok []) "srt" "1"
     = Raise (ValueError "Unsupported caption format: srt").
Proof.
  split; [discriminate |].
  apply (proj1 parse_captions_rejects_non_vtt (fun _ => Ok []) "srt" "1").
  discriminate.
Defined.

(** ** The track selector *)

Lemma first_track_none (format : string) (tracks : list Track) :
  (forall t, In t tracks -> skipped t = true \/ has_ext format t = false) ->
  first_track format tracks = None.
Proof.
  induction tracks as [| t tracks IH]; intros H; simpl.
  - reflexivity.
  - destruct (H t (or_introl eq_refl)) as [Hs | He].
    + rewrite Hs. apply IH. intros t' Ht'. apply H. now right.
    + destruct (skipped t); rewrite ?He; apply IH; intros t' Ht';
        apply H; now right.
Qed.

Lemma first_format_none (formats : list string) (tracks : list Track) :
  (forall t, In t tracks ->
     skipped t = true \/ forall f, In f formats -> has_ext f t = false) ->
  first_format formats tracks = None.
Proof.
  induction formats as [| f formats IH]; intros H; simpl.
  - reflexivity.
  - rewrite first_track_none.
    + apply IH. intros t Ht. destruct (H t Ht) as [Hs | He]; [now left |].
      right. intros f' Hf'. apply He. now right.
    + intros t Ht. destruct (H t Ht) as [Hs | He]; [now left |].
      right. apply He. now left.
Qed.

Lemma first_track_some (format : string) (tracks : list Track) (t : Track) :
  first_track format tracks = Some t ->
  In t tracks /\ skipped t = false /\ has_ext format t = true.
Proof.
  induction tracks as [| t' tracks IH]; simpl; [discriminate |].
  destruct (skipped t') eqn:Hs.
  - intros H. destruct (IH H) as (? & ? & ?). auto.
  - destruct (has_ext format t') eqn:He.
    + intros [= <-]. auto.
    + intros H. destruct (IH H) as (? & ? & ?). auto.
Qed.

Lemma first_format_some (formats : list string) (tracks : list Track)
  (t : Track) :
  first_format formats tracks = Some t ->
  In t tracks /\ skipped t = false
  /\ exists f, In f formats /\ has_ext f t = true.
Proof.
  induction formats as [| f formats IH]; simpl; [discriminate |].
  destruct (first_track f tracks) eqn:Hf.
  - intros [= <-]. apply first_track_some in Hf as (? & ? & ?).
    repeat split; auto. exists f. auto.
  - intros H. destruct (IH H) as (? & ? & f' & ? & ?).
    repeat split; auto. exists f'. auto.
Qed.

(** C5 as stated fails: a catalogue in which no language matches and one in
    which the language [en] matches but its only track has the format
    [json3] both give the caller [None]. *)
Lemma no_usable_format_same_as_no_track :
  let no_language := mkInfo None None in
  let no_format :=
    mkInfo (Some [("en", [mkTrack (Some "English") None (Some "json3")
                            (Some "https://example.com/en.json3")])])
           None in
  select_language no_language = None
  /\ (exists tracks, select_language no_format = Some tracks /\ tracks <> [])
  /\ get_captions_by_priority no_format = get_captions_by_priority no_language.
Proof.
  cbv zeta. split; [reflexivity | split; [| reflexivity]].
  eexists. split; [reflexivity | discriminate].
Qed.

(** C5, amended.  The selector returns [None] when no language's track list
    is selected and [None] again when a list is selected but each of its
    tracks is skipped or has none of the formats vtt, srt, ttml; a track it
    does return is in the selected list, is not skipped and has one of the
    three formats. *)
Theorem selector_none_in_both_cases (info : Info) :
  (falsy (select_language info) = true ->
   get_captions_by_priority info = None)
  /\ (forall tracks,
        select_language info = Some tracks ->
        (forall t, In t tracks ->
           skipped t = true
           \/ forall f, In f format_priorities -> has_ext f t = false) ->
        get_captions_by_priority info = None)
  /\ (forall track,
        get_captions_by_priority info = Some track ->
        exists tracks,
          select_language info = Some tracks /\ In track tracks
          /\ skipped track = false
          /\ exists f, In f format_priorities /\ has_ext f track = true).
Proof.
  unfold get_captions_by_priority. repeat split.
  - intros ->. reflexivity.
  - intros tracks -> H. destruct (falsy (Some tracks)); [reflexivity |].
    now apply first_format_none.
  - intros track. destruct (select_language info) as [tracks |] eqn:Hsel.
    + destruct (falsy (Some tracks)); [discriminate |].
      intros H. exists tracks. split; [reflexivity |].
      now apply first_format_some.
    + simpl. discriminate.
Qed.

Lemma selector_none_in_both_cases_witness :
  let info :=
    mkInfo (Some [("en", [mkTrack (Some "English") None (Some "json3") None;
                          mkTrack None None (Some "vtt") None])])
           None in
  get_captions_by_priority info = None.
Proof.
  cbv zeta.
  eapply (proj1 (proj2 (selector_none_in_both_cases _))).
  - reflexivity.
  - intros t [<- | [<- | []]].
    + right. intros f [<- | [<- | [<- | []]]]; reflexivity.
    + left. reflexivity.
Defined.

(** ** Milliseconds for the formatter *)

Module Binary64Facts.

Import Binary64.

Lemma abs_sign_of (s : bool) (z : Z) : Z.abs (sign_of s z) = Z.abs z.
Proof. destruct s; simpl; [apply Z.abs_opp | reflexivity]. Qed.

Lemma pow2_pos (k : Z) : 0 <= k -> 0 < 2 ^ k.
Proof. intros. apply Z.pow_pos_nonneg; lia. Qed.

(** [int] is never further from zero than [round], and at most one
    nearer. *)
Lemma to_int_round (x : float) (z : Z) :
  to_int x = Ok z ->
  exists r, round x = Ok r /\ Z.abs z <= Z.abs r <= Z.abs z + 1.
Proof.
  destruct x as [s | s | | s m e]; simpl; try discriminate.
  - intros [= <-]. exists 0. split; [reflexivity | lia].
  - intros [= <-]. eexists. split; [reflexivity |].
    rewrite !abs_sign_of.
    destruct (0 <=? e) eqn:He; [lia |].
    apply Z.leb_gt in He.
    pose proof (pow2_pos (- e) ltac:(lia)) as Hp.
    pose proof (Z.div_pos (Z.pos m) (2 ^ (- e)) ltac:(lia) Hp) as Hq.
    destruct (Z.compare _ _); [destruct (Z.even _) | |]; lia.
Qed.

Lemma Qabs_sign (s : bool) (v : Q) :
  (0 <= v)%Q -> (Qabs (if s then - v else v) == v)%Q.
Proof.
  intros H. destruct s; [rewrite Qabs_opp |]; now apply Qabs_pos.
Qed.

(** [int] is the integer part of the exact value. *)
Lemma to_int_value (x : float) (z : Z) :
  to_int x = Ok z ->
  (inject_Z (Z.abs z) <= Qabs (value x) < inject_Z (Z.abs z) + 1)%Q.
Proof.
  destruct x as [s | s | | s m e]; simpl; try discriminate.
  - intros [= <-]. simpl. split; [apply Qle_refl | reflexivity].
  - intros [= <-]. rewrite abs_sign_of.
    destruct (0 <=? e) eqn:He.
    + apply Z.leb_le in He.
      assert (Hnn : 0 <= Z.pos m * 2 ^ e).
      { pose proof (pow2_pos e He). lia. }
      rewrite Qabs_sign by (rewrite <- Zle_Qle with (x := 0); exact Hnn).
      rewrite Z.abs_eq by exact Hnn. split; [apply Qle_refl |].
      rewrite <- Qplus_0_r at 1. apply Qplus_lt_r. reflexivity.
    + apply Z.leb_gt in He.
      pose proof (pow2_pos (- e) ltac:(lia)) as Hp.
      pose proof (Z.div_pos (Z.pos m) (2 ^ (- e)) ltac:(lia) Hp) as Hq.
      rewrite Z.abs_eq by exact Hq.
      assert (Hv : (0 <= inject_Z (Z.pos m) / inject_Z (2 ^ (- e)))%Q).
      { apply Qle_shift_div_l.
        - rewrite <- Zlt_Qlt with (x := 0). exact Hp.
        - rewrite Qmult_0_l. rewrite <- Zle_Qle with (x := 0). lia. }
      rewrite (Qabs_sign s _ Hv).
      rewrite Zdiv_Qdiv. split.
      * apply Qfloor_le.
      * rewrite <- inject_Z_plus with (y := 1). apply Qlt_floor.
Qed.

End Binary64Facts.

(** C9, at a failing input.  The segment that starts at 00:00:01.001 has
    [start_sec = 0.0 * 3600 + 0.0 * 60 + 1.001]; in binary64 the product with
    1000 is 1000.9999999999999, of which [int] keeps 1000 while [round]
    gives 1001, the milliseconds of the timestamp.  The same happens to the
    duration of a segment that ends at 00:00:02.002. *)
Lemma offset_is_not_rounded :
  let sec (ms : Z) :=
    Binary64.add
      (Binary64.add (Binary64.mul (Binary64.of_Z 0) (Binary64.of_Z 3600))
                    (Binary64.mul (Binary64.of_Z 0) (Binary64.of_Z 60)))
      (Binary64.div (Binary64.of_Z ms) (Binary64.of_Z 1000)) in
  let data := mkData (sec 1001) (sec 2002) "hello" in
  convert_caption_data data = Ok (mkConverted "hello" 1000 "0:00:01" 1000)
  /\ Binary64.round
       (Binary64.mul (data_start_sec data) (Binary64.of_Z 1000)) = Ok 1001
  /\ Binary64.round
       (Binary64.mul (Binary64.sub (data_end_sec data) (data_start_sec data))
                     (Binary64.of_Z 1000)) = Ok 1001.
Proof. cbv zeta. repeat split; vm_compute; reflexivity. Qed.

(** How far [int] falls from [round]: the offset and the duration are the
    integer parts, towards zero, of the binary64 products; each is never
    further from zero than the rounded product and at most one millisecond
    nearer. *)
Lemma offset_and_duration_truncate (data : caption_data) (out : converted) :
  convert_caption_data data = Ok out ->
  let p := Binary64.mul (data_start_sec data) (Binary64.of_Z 1000) in
  let d := Binary64.mul (Binary64.sub (data_end_sec data) (data_start_sec data))
                        (Binary64.of_Z 1000) in
  (inject_Z (Z.abs (offset out)) <= Qabs (Binary64.value p)
   < inject_Z (Z.abs (offset out)) + 1)%Q
  /\ (inject_Z (Z.abs (duration out)) <= Qabs (Binary64.value d)
      < inject_Z (Z.abs (duration out)) + 1)%Q
  /\ (exists r, Binary64.round p = Ok r
                /\ Z.abs (offset out) <= Z.abs r <= Z.abs (offset out) + 1)
  /\ (exists r, Binary64.round d = Ok r
                /\ Z.abs (duration out) <= Z.abs r <= Z.abs (duration out) + 1).
Proof.
  unfold convert_caption_data. intros H. cbv zeta.
  destruct (Binary64.to_int (Binary64.mul (data_start_sec data) _))
    as [o |] eqn:Ho; simpl in H; [| discriminate].
  destruct (Binary64.to_int (data_start_sec data)) as [w |];
    simpl in H; [| discriminate].
  destruct (timedelta_str w) as [t |]; simpl in H; [| discriminate].
  destruct (Binary64.to_int (Binary64.mul (Binary64.sub _ _) _))
    as [u |] eqn:Hu; simpl in H; [| discriminate].
  injection H as <-. simpl.
  repeat split;
    try (now apply Binary64Facts.to_int_value);
    now apply Binary64Facts.to_int_round.
Qed.

Lemma offset_and_duration_truncate_witness :
  let data :=
    mkData (Binary64.div (Binary64.of_Z 1001) (Binary64.of_Z 1000))
           (Binary64.div (Binary64.of_Z 2002) (Binary64.of_Z 1000)) "hello" in
  exists r, Binary64.round
              (Binary64.mul (data_start_sec data) (Binary64.of_Z 1000)) = Ok r
            /\ Z.abs 1000 <= Z.abs r <= Z.abs 1000 + 1.
Proof.
  cbv zeta.
  refine (proj1 (proj2 (proj2
            (offset_and_duration_truncate
               (mkData (Binary64.div (Binary64.of_Z 1001) (Binary64.of_Z 1000))
                       (Binary64.div (Binary64.of_Z 2002) (Binary64.of_Z 1000))
                       "hello")
               (mkConverted "hello" 1000 "0:00:01" 1000) _)))).
  vm_compute. reflexivity.
Defined.

(** ** Timestamps as strings *)

Module StringFacts.

Import DigitFacts ParseFacts TimestampFacts MergerFacts.

Lemma length_dec_below_100 (n : Z) :
  0 <= n < 100 -> (length (dec n) <= 2)%nat.
Proof.
  intros Hn.
  assert (Hall : forallb (fun i => (length (dec (Z.of_nat i)) <=? 2)%nat)
                   (seq 0 100) = true) by (vm_compute; reflexivity).
  rewrite forallb_forall in Hall.
  specialize (Hall (Z.to_nat n)).
  rewrite Z2Nat.id in Hall by lia.
  apply Nat.leb_le, Hall, in_seq. lia.
Qed.

Lemma short_number_two_digits (n : Z) :
  0 <= n < 100 -> short_number (zfill 2 (dec n)) = Some n.
Proof.
  intros Hn. unfold short_number.
  rewrite length_zfill, (digits_value_zfill 2 n (proj1 Hn)).
  pose proof (length_dec_below_100 n Hn).
  replace (Nat.max 2 (length (dec n))) with 2%nat by lia. reflexivity.
Qed.

(** What [Timestamp.from_string] reads from four fields in range written
    [HH:MM:SS.mmm]. *)
Lemma from_string_fields (h m s ms : Z) :
  0 <= h < 100 -> 0 <= m < 60 -> 0 <= s < 60 -> 0 <= ms < 1000 ->
  Timestamp_from_string
    (zfill 2 (dec h) ++ ":" ++ zfill 2 (dec m) ++ ":"
     ++ zfill 2 (dec s) ++ "." ++ fmt_03d ms)
  = Ok (mkTimestamp h m s ms).
Proof.
  intros Hh Hm Hs Hms. unfold Timestamp_from_string.
  change (zfill 2 (dec h) ++ ":" ++ ?r)%string
    with (zfill 2 (dec h) ++ String ":" r)%string.
  rewrite split_app
    by (apply digits_without; [reflexivity | apply zfill_digits, dec_digits]).
  change (zfill 2 (dec m) ++ ":" ++ ?r)%string
    with (zfill 2 (dec m) ++ String ":" r)%string.
  rewrite split_app
    by (apply digits_without; [reflexivity | apply zfill_digits, dec_digits]).
  rewrite split_without.
  2: { rewrite all_chars_app. apply andb_true_iff. split.
       - apply digits_without; [reflexivity | apply zfill_digits, dec_digits].
       - simpl. apply digits_without; [reflexivity |].
         apply zfill_digits, dec_digits. }
  rewrite (short_number_two_digits h Hh).
  rewrite (short_number_two_digits m ltac:(lia)).
  change (zfill 2 (dec s) ++ "." ++ ?r)%string
    with (zfill 2 (dec s) ++ String "." r)%string.
  rewrite split_app
    by (apply digits_without; [reflexivity | apply zfill_digits, dec_digits]).
  rewrite split_without
    by (apply digits_without; [reflexivity | apply zfill_digits, dec_digits]).
  rewrite (short_number_two_digits s ltac:(lia)).
  rewrite (length_fmt_03d _ Hms). cbn [Nat.eqb].
  unfold fmt_03d. rewrite (digits_value_zfill 3 _ (proj1 Hms)).
  destruct (Z.ltb_spec 59 m); [lia |].
  destruct (Z.ltb_spec 59 s); [lia |].
  reflexivity.
Qed.

Lemma Timestamp_str_fields (t : Timestamp) :
  0 <= hours t -> 0 <= minutes t -> 0 <= seconds t ->
  Timestamp_str t
  = zfill 2 (dec (hours t)) ++ ":" ++ zfill 2 (dec (minutes t)) ++ ":"
    ++ zfill 2 (dec (seconds t)) ++ "." ++ fmt_03d (milliseconds t).
Proof.
  intros Hh Hm Hs. unfold Timestamp_str.
  now rewrite !fmt_02d_nonneg by assumption.
Qed.

Lemma from_string_str (t : Timestamp) :
  valid_timestamp t -> Timestamp_from_string (Timestamp_str t) = Ok t.
Proof.
  intros (Hh & Hm & Hs & Hms).
  rewrite Timestamp_str_fields by lia.
  rewrite from_string_fields by assumption.
  now destruct t.
Qed.

Lemma at_ms_valid (k : Z) : 0 <= k < 360000000 -> valid_timestamp (at_ms k).
Proof.
  intros Hk. unfold valid_timestamp, at_ms.
  cbn [hours minutes seconds milliseconds].
  pose proof (Z.mod_pos_bound k 1000 ltac:(lia)).
  pose proof (Z.mod_pos_bound k 60000 ltac:(lia)).
  pose proof (Z.mod_pos_bound k 3600000 ltac:(lia)).
  repeat split.
  - apply Z.div_pos; lia.
  - apply Z.div_lt_upper_bound; lia.
  - apply Z.div_pos; lia.
  - apply Z.div_lt_upper_bound; lia.
  - apply Z.div_pos; lia.
  - apply Z.div_lt_upper_bound; lia.
  - lia.
  - lia.
Qed.

Lemma from_string_seconds (k : Z) :
  0 <= k < 360000000 ->
  Timestamp_from_string (_seconds_to_timestamp (k # 1000)) = Ok (at_ms k).
Proof.
  intros Hk. rewrite seconds_to_timestamp_ms by lia.
  destruct (at_ms_valid k Hk) as (Hh & Hm & Hs & Hms).
  unfold at_ms in Hh, Hm, Hs, Hms.
  cbn [hours minutes seconds milliseconds] in Hh, Hm, Hs, Hms.
  now rewrite from_string_fields by assumption.
Qed.

(** The milliseconds of a valid timestamp. *)
Lemma valid_ms_bounds (t : Timestamp) :
  valid_timestamp t ->
  0 <= in_seconds t * 1000 + milliseconds t < 360000000.
Proof.
  unfold valid_timestamp, in_seconds. lia.
Qed.

End StringFacts.

(** ** The merger on valid cues *)

Module TotalFacts.

Import DigitFacts ParseFacts TimestampFacts MergerFacts StringFacts.

Local Open Scope Q_scope.

Lemma set_end_str (t : Timestamp) (p : Caption) :
  valid_timestamp t ->
  set_end (Timestamp_str t) p = Ok (mkCaption (start_time p) t (text p)).
Proof. intros H. unfold set_end. now rewrite (from_string_str t H). Qed.

Lemma set_start_str (t : Timestamp) (p : Caption) :
  valid_timestamp t ->
  set_start (Timestamp_str t) p = Ok (mkCaption t (end_time p) (text p)).
Proof. intros H. unfold set_start. now rewrite (from_string_str t H). Qed.

Lemma line_rules_total (p c : Caption) :
  text c <> "" -> valid_cue p -> valid_cue c ->
  exists o, line_rules p c = Ok o
            /\ match o with
               | Folded p1 => valid_cue p1
               | Kept _ c2 =>
                   start_time c2 = start_time c /\ end_time c2 = end_time c
               end.
Proof.
  intros Hne [Hps Hpe] [Hcs Hce]. unfold line_rules.
  destruct (String.eqb _ _).
  - destruct (_ =? 1)%nat; [destruct (_ && _) |];
      eexists; (split; [reflexivity |]); split; reflexivity.
  - destruct (_ <=? 2)%nat.
    + unfold get_end. rewrite (set_end_str _ p Hce). cbn [bind].
      destruct (text c) as [| ch rest]; [congruence |].
      eexists. split; [reflexivity |]. split; assumption.
    + eexists. split; [reflexivity |]. split; reflexivity.
Qed.

(** The overlap correction on valid cues writes a valid end. *)
Lemma overlap_correction_total (p c : Caption) :
  valid_cue p -> valid_timestamp (start_time c) ->
  exists t, set_end (_seconds_to_timestamp
                       (max0 (_ts_to_secs (start_time c) - (1 # 1000)))) p
            = Ok (mkCaption (start_time p) t (text p))
            /\ valid_timestamp t.
Proof.
  intros [Hps Hpe] Hcs.
  pose proof (valid_ms_bounds _ Hcs) as HK.
  pose proof (ts_to_secs_ms (start_time c)) as Hms.
  assert (H0 : 0 <= _ts_to_secs (start_time c)).
  { rewrite Hms. unfold Qle. cbn [Qnum Qden]. lia. }
  destruct (new_time_ms (start_time c) H0) as (k & Hk & Hnew & Hle).
  assert (Hk' : (0 <= k < 360000000)%Z).
  { rewrite Hms in Hle. unfold Qle in Hle. cbn [Qnum Qden] in Hle. lia. }
  exists (at_ms k). split; [| now apply at_ms_valid].
  unfold set_end. rewrite (seconds_to_timestamp_comp _ _ Hnew).
  now rewrite (from_string_seconds k Hk').
Qed.

(** One iteration on valid cues returns, yields at most one cue, and the
    cues it hands on are valid. *)
Lemma iteration_total (p c : Caption) :
  valid_cue p -> valid_cue c ->
  exists yl p', iteration p c = Ok (yl, p')
                /\ valid_cue p' /\ Forall valid_cue yl
                /\ (List.length yl <= 1)%nat.
Proof.
  intros Hp Hc. unfold iteration.
  set (c1 := set_text (strip (text c)) c).
  assert (Hc1 : valid_cue c1) by exact Hc.
  destruct (length (text c1) =? 0)%nat eqn:Hlen.
  { exists [], p. split; [reflexivity |]. split; [exact Hp |].
    split; [constructor | simpl; lia]. }
  destruct (short_duplicate p c1).
  { unfold get_end. rewrite (set_end_str _ p (proj2 Hc1)). cbn [bind].
    eexists [], _. split; [reflexivity |].
    split; [split; [apply Hp | apply Hc] |].
    split; [constructor | simpl; lia]. }
  assert (Hne : text c1 <> "").
  { intros E. rewrite E in Hlen. discriminate. }
  destruct (line_rules_total p c1 Hne Hp Hc1) as (o & -> & Ho). cbn [bind].
  destruct o as [p1 | sw c2].
  { exists [], p1. split; [reflexivity |]. split; [exact Ho |].
    split; [constructor | simpl; lia]. }
  destruct Ho as [Es Ee].
  assert (Hc2 : valid_cue c2) by (split; [rewrite Es | rewrite Ee]; apply Hc).
  assert (Hov : exists p2,
             (if Qle_bool (_ts_to_secs (start_time c2))
                          (_ts_to_secs (end_time p))
              then set_end (_seconds_to_timestamp
                              (max0 (_ts_to_secs (start_time c2) - (1 # 1000))))
                           p
              else Ok p) = Ok p2 /\ valid_cue p2).
  { destruct (Qle_bool _ _).
    - destruct (overlap_correction_total p c2 Hp (proj1 Hc2)) as (t & -> & Ht).
      eexists. split; [reflexivity |]. split; [apply Hp | exact Ht].
    - exists p. auto. }
  destruct Hov as (p2 & -> & Hp2). cbn [bind].
  assert (Hsw : exists c3,
             (if Qle_bool (_ts_to_secs (end_time c2))
                          (_ts_to_secs (start_time c2))
              then
                let '(new_start, new_end) := (get_end c2, get_start c2) in
                subtitle <- set_start new_start c2 ;; set_end new_end subtitle
              else Ok c2) = Ok c3 /\ valid_cue c3).
  { destruct (Qle_bool _ _).
    - unfold get_end, get_start.
      rewrite (set_start_str _ c2 (proj2 Hc2)). cbn [bind].
      rewrite (set_end_str _ _ (proj1 Hc2)).
      eexists. split; [reflexivity |]. split; [apply Hc2 | apply Hc2].
    - exists c2. auto. }
  destruct Hsw as (c3 & -> & Hc3). cbn [bind].
  eexists _, c3. split; [reflexivity |].
  split; [exact Hc3 |].
  destruct sw; cbn [negb];
    (split; [repeat (constructor; try assumption) | simpl; lia]).
Qed.

Lemma dedupe_from_total (rest : list Caption) :
  forall p, valid_cue p -> Forall valid_cue rest ->
    exists ys, dedupe_from (Some p) rest = Ok (map Some ys)
               /\ Forall valid_cue ys
               /\ (1 <= List.length ys <= S (List.length rest))%nat.
Proof.
  induction rest as [| c rest IH]; intros p Hp Hrest; cbn [dedupe_from].
  - exists [p]. split; [reflexivity |].
    split; [repeat (constructor; try assumption) | simpl; lia].
  - inversion Hrest as [| ? ? Hc Hrest']; subst.
    destruct (iteration_total p c Hp Hc) as (yl & p' & -> & Hp' & Hyl & Hlen).
    cbn [bind].
    destruct (IH p' Hp' Hrest') as (ys & -> & Hys & Hl).
    cbn [bind]. exists (yl ++ ys)%list.
    rewrite map_app. split; [reflexivity |].
    split; [now apply Forall_app |].
    rewrite List.length_app. cbn [List.length]. lia.
Qed.

End TotalFacts.

(** X1.  On a sequence of one or more valid cues the merger raises no
    exception: it yields at least one cue and no more cues than it was
    given, none of them [None], and every cue it yields is valid again. *)
Theorem merger_returns_on_valid_cues (cues : list Caption) :
  cues <> [] ->
  Forall valid_cue cues ->
  exists ys,
    dedupe_yt_captions cues = Ok (map Some ys)
    /\ Forall valid_cue ys
    /\ (1 <= List.length ys <= List.length cues)%nat.
Proof.
  destruct cues as [| first rest]; [congruence |]. intros _ Hall.
  inversion Hall as [| ? ? Hf Hr]; subst.
  exact (TotalFacts.dedupe_from_total rest first Hf Hr).
Qed.

Lemma merger_returns_on_valid_cues_witness :
  exists ys,
    dedupe_yt_captions
      [cue 0 2000 (lines2 "line one" "line two");
       cue 2000 4000 (lines2 "line two" "line three")]
    = Ok (map Some ys)
    /\ (1 <= List.length ys <= 2)%nat.
Proof.
  destruct (merger_returns_on_valid_cues
              [cue 0 2000 (lines2 "line one" "line two");
               cue 2000 4000 (lines2 "line two" "line three")])
    as (ys & Hy & _ & Hl).
  - discriminate.
  - repeat constructor; vm_compute; intuition discriminate.
  - exists ys. split; [exact Hy | exact Hl].
Defined.

(** X2.  When valid cues come in the order of their starts and each cue
    after the first starts before its own end, the merger returns and no cue
    it yields ends after the next one starts. *)
Theorem ordered_valid_cues_do_not_overlap (first : Caption)
  (rest : list Caption) :
  Forall valid_cue (first :: rest) ->
  ordered_after (_ts_to_secs (start_time first)) rest ->
  exists ys,
    dedupe_yt_captions (first :: rest) = Ok (map Some ys) /\ no_overlap ys.
Proof.
  intros Hall Hord.
  inversion Hall as [| ? ? Hf Hr]; subst.
  destruct (TotalFacts.dedupe_from_total rest first Hf Hr) as (ys & Hy & _).
  exists ys. split; [exact Hy |].
  destruct (MergerFacts.dedupe_from_no_overlap rest first _ Hord Hy)
    as (ys' & Heq & Hno & _).
  assert (ys = ys'); [| now subst].
  clear - Heq. revert ys' Heq.
  induction ys as [| y ys IH]; intros [| y' ys']; simpl; try discriminate; auto.
  intros [= -> H]. f_equal. now apply IH.
Qed.

Lemma ordered_valid_cues_do_not_overlap_witness :
  exists ys,
    dedupe_yt_captions
      [cue 0 2000 (lines2 "line one" "line two");
       cue 1500 4000 (lines2 "line two" "line three")]
    = Ok (map Some ys)
    /\ no_overlap ys.
Proof.
  apply (ordered_valid_cues_do_not_overlap
           (cue 0 2000 (lines2 "line one" "line two"))
           [cue 1500 4000 (lines2 "line two" "line three")]).
  - repeat constructor; vm_compute; intuition discriminate.
  - repeat split; vm_compute; intuition discriminate.
Defined.

(** ** The segmenter *)

Module SegmentFacts.

Import DigitFacts ParseFacts TimestampFacts MergerFacts StringFacts.

Local Open Scope Q_scope.

Lemma gap_separator_law (gap : Q) :
  let sep := if Qltb 3 gap then String nl (String nl "")
             else if Qltb 1 gap then String nl "" else " " in
  (3 < gap -> sep = String nl (String nl ""))
  /\ (1 < gap -> gap <= 3 -> sep = String nl "")
  /\ (gap <= 1 -> sep = " ").
Proof.
  cbv zeta.
  destruct (Qltb 3 gap) eqn:H3; [apply Qltb_lt in H3 |];
    (destruct (Qltb 1 gap) eqn:H1; [apply Qltb_lt in H1 |]).
  - repeat split; auto.
    + intros _ Hle. exfalso. exact (Qlt_not_le _ _ H3 Hle).
    + intros Hle. exfalso. exact (Qlt_not_le _ _ H1 Hle).
  - exfalso. apply not_true_iff_false in H1. apply H1, Qltb_lt.
    apply Qlt_trans with 3; [reflexivity | exact H3].
  - apply not_true_iff_false in H3. repeat split; auto.
    + intros Hc. exfalso. apply H3. now apply Qltb_lt.
    + intros Hle. exfalso. exact (Qlt_not_le _ _ H1 Hle).
  - apply not_true_iff_false in H3. apply not_true_iff_false in H1.
    repeat split; auto.
    + intros Hc. exfalso. apply H3. now apply Qltb_lt.
    + intros Hc. exfalso. apply H1. now apply Qltb_lt.
Qed.

Lemma last_rev {A : Type} (l : list A) (x : A) : rev (l ++ [x]) = x :: rev l.
Proof. now rewrite rev_app_distr. Qed.

(** The separator of one new segment. *)
Lemma segment_of_separator (acc : list Segment) (cap : option Caption)
  (seg : Segment) :
  segment_of (List.length acc) acc cap = Ok seg ->
  match rev acc with
  | [] => separator seg = ""
  | p :: _ => separator_law p seg
  end.
Proof.
  unfold segment_of. destruct cap as [c |]; [| discriminate].
  destruct (_timestamp_to_seconds (get_start c)) as [s0 |]; [| discriminate].
  destruct (_timestamp_to_seconds (get_end c)) as [e0 |]; [| discriminate].
  cbn [bind].
  destruct acc as [| a acc] using rev_ind.
  - cbn. now intros [= <-].
  - rewrite List.length_app, Nat.add_comm. cbn [List.length Nat.add Nat.eqb].
    rewrite last_rev. cbn [bind].
    pose proof (gap_separator_law (s0 - end_sec a)) as Hlaw. cbv zeta in Hlaw.
    destruct (Qltb 3 _); [| destruct (Qltb 1 _)];
      cbn [bind]; intros [= <-]; exact Hlaw.
Qed.

Lemma segments_from_separators (caps : list (option Caption)) :
  forall (acc out : list Segment),
    segments_from (List.length acc) acc caps = Ok out ->
    exists news, out = (acc ++ news)%list
                 /\ separators_follow (hd_error (rev acc)) news.
Proof.
  induction caps as [| cap caps IH]; intros acc out; cbn [segments_from].
  - intros [= <-]. exists []. now rewrite app_nil_r.
  - destruct (segment_of (List.length acc) acc cap) as [seg |] eqn:Eseg;
      [| discriminate].
    cbn [bind]. intros Hout.
    replace (S (List.length acc)) with (List.length (acc ++ [seg]))%list in Hout
      by (rewrite List.length_app; simpl; lia).
    destruct (IH _ _ Hout) as (news & -> & Hnews).
    exists (seg :: news). split; [now rewrite <- app_assoc |].
    rewrite last_rev in Hnews. cbn [hd_error] in Hnews.
    split; [| exact Hnews].
    apply segment_of_separator in Eseg.
    destruct (rev acc); exact Eseg.
Qed.

(** The times the segmenter computes from the strings of a cue's
    timestamps are the times of the timestamps. *)
Lemma timestamp_to_seconds_str (t : Timestamp) :
  valid_timestamp t ->
  exists q, _timestamp_to_seconds (Timestamp_str t) = Ok q
            /\ q == _ts_to_secs t.
Proof.
  intros (Hh & Hm & Hs & Hms).
  rewrite Timestamp_str_fields by lia.
  rewrite timestamp_to_seconds_fields by lia.
  eexists. split; [reflexivity |].
  unfold _ts_to_secs, in_seconds.
  rewrite !inject_Z_plus, !inject_Z_mult. ring.
Qed.

Lemma segment_of_valid (idx : nat) (acc : list Segment) (c : Caption) :
  (idx = List.length acc) -> valid_cue c ->
  exists seg, segment_of idx acc (Some c) = Ok seg /\ segment_matches c seg.
Proof.
  intros Hidx [Hs He]. unfold segment_of, get_start, get_end.
  destruct (timestamp_to_seconds_str _ Hs) as (qs & -> & Hqs).
  destruct (timestamp_to_seconds_str _ He) as (qe & -> & Hqe).
  cbn [bind]. subst idx.
  destruct acc as [| a acc] using rev_ind.
  - cbn. eexists. split; [reflexivity |]. repeat split; assumption.
  - rewrite List.length_app, Nat.add_comm. cbn [List.length Nat.add Nat.eqb].
    rewrite last_rev.
    destruct (Qltb 3 _); [| destruct (Qltb 1 _)]; cbn [bind];
      (eexists; split; [reflexivity |]; repeat split; assumption).
Qed.

Lemma segments_from_valid (ys : list Caption) :
  forall (acc : list Segment),
    Forall valid_cue ys ->
    exists news, segments_from (List.length acc) acc (map Some ys)
                 = Ok (acc ++ news)%list
                 /\ Forall2 segment_matches ys news.
Proof.
  induction ys as [| y ys IH]; intros acc Hall; cbn [segments_from map].
  - exists []. rewrite app_nil_r. split; [reflexivity | constructor].
  - inversion Hall as [| ? ? Hy Hys]; subst.
    destruct (segment_of_valid (List.length acc) acc y eq_refl Hy)
      as (seg & -> & Hseg).
    cbn [bind].
    replace (S (List.length acc)) with (List.length (acc ++ [seg]))%list
      by (rewrite List.length_app; simpl; lia).
    destruct (IH (acc ++ [seg])%list Hys) as (news & -> & Hnews).
    exists (seg :: news). rewrite <- app_assoc.
    split; [reflexivity | now constructor].
Qed.

End SegmentFacts.

Module ReportFacts.

Import MergerFacts.

Local Open Scope Q_scope.

Lemma ts_to_secs_ms_of (t : Timestamp) : _ts_to_secs t == ms_of t # 1000.
Proof. exact (ts_to_secs_ms t). Qed.

Lemma matches_reports (c : Caption) (s : Segment) :
  segment_matches c s -> segment_reports c s.
Proof.
  intros (Hs & He & Hss & Hes & Ht).
  assert (Hzero : forall x t, x == _ts_to_secs t ->
                    Qabs (x - (ms_of t # 1000)) < 1 # 1000000).
  { intros x t Hx.
    assert (Hd : x - (ms_of t # 1000) == 0).
    { rewrite Hx, ts_to_secs_ms_of. ring. }
    rewrite Hd. reflexivity. }
  repeat split; auto.
Qed.

(** The law on the seconds of two segments gives the gap rule on the
    milliseconds of their cues. *)
Lemma law_gap_rule (p c : Caption) (sp sc : Segment) :
  end_sec sp == _ts_to_secs (end_time p) ->
  start_sec sc == _ts_to_secs (start_time c) ->
  separator_law sp sc -> gap_rule p c sc.
Proof.
  intros Hp Hc (H3 & H1 & H0). cbv zeta in H3, H1, H0.
  assert (Hgap : start_sec sc - end_sec sp
                 == (ms_of (start_time c) - ms_of (end_time p)) # 1000).
  { rewrite Hp, Hc, !ts_to_secs_ms_of.
    unfold Qeq, Qminus, Qplus, Qopp. cbn [Qnum Qden].
    change (Z.pos (1000 * 1000)) with 1000000%Z. lia. }
  unfold gap_rule. cbv zeta.
  set (g := (ms_of (start_time c) - ms_of (end_time p))%Z) in *.
  assert (Hle : forall k : Z, (g <= k)%Z -> g # 1000 <= k # 1000).
  { intros k Hk. unfold Qle. cbn [Qnum Qden]. lia. }
  assert (Hlt : forall k : Z, (k < g)%Z -> k # 1000 < g # 1000).
  { intros k Hk. unfold Qlt. cbn [Qnum Qden]. lia. }
  assert (Hone : 1 == 1000 # 1000) by reflexivity.
  assert (Hthree : 3 == 3000 # 1000) by reflexivity.
  repeat split.
  - intros Hg. apply H0. rewrite Hgap, Hone. apply Hle. lia.
  - intros Hg. left. apply H0. rewrite Hgap, Hone. apply Hle. lia.
  - intros [Hg1 Hg3]. apply H1.
    + rewrite Hgap, Hone. now apply Hlt.
    + rewrite Hgap, Hthree. apply Hle. lia.
  - intros Hg. left. apply H1.
    + rewrite Hgap, Hone. apply Hlt. lia.
    + rewrite Hgap, Hthree. apply Hle. lia.
  - intros Hg. apply H3. rewrite Hgap, Hthree. now apply Hlt.
Qed.

Lemma follow_by_gap (ys : list Caption) (segs : list Segment) :
  Forall2 segment_matches ys segs ->
  forall (p : Caption) (sp : Segment),
    end_sec sp == _ts_to_secs (end_time p) ->
    separators_follow (Some sp) segs ->
    separators_by_gap (Some p) ys segs.
Proof.
  induction 1 as [| y s ys segs Hys _ IH]; intros p sp Hp; cbn; [auto |].
  intros [Hlaw Hrest]. split.
  - destruct Hys as (_ & _ & Hs & _).
    exact (law_gap_rule p y sp s Hp Hs Hlaw).
  - destruct Hys as (_ & _ & _ & He & _). exact (IH y s He Hrest).
Qed.

Lemma follow_by_gap_first (ys : list Caption) (segs : list Segment) :
  Forall2 segment_matches ys segs ->
  separators_follow None segs ->
  separators_by_gap None ys segs.
Proof.
  intros [| y s ys' segs' Hys Hrest]; cbn; [auto |].
  intros [Hsep Hfollow]. split; [exact Hsep |].
  destruct Hys as (_ & _ & _ & He & _).
  exact (follow_by_gap ys' segs' Hrest y s He Hfollow).
Qed.

(** On valid cues the merger and the segmenter return, and the segments
    match the cues the merger yields. *)
Lemma parse_captions_matches
  (from_string : string -> result (list Caption)) (content : string)
  (cues : list Caption) :
  from_string content = Ok cues ->
  cues <> [] ->
  Forall valid_cue cues ->
  exists ys segs,
    dedupe_yt_captions cues = Ok (map Some ys)
    /\ parse_captions from_string "vtt" content = Ok segs
    /\ Forall2 segment_matches ys segs
    /\ separators_follow None segs.
Proof.
  intros Hparse Hne Hall.
  destruct cues as [| first rest]; [congruence |].
  inversion Hall as [| ? ? Hf Hr]; subst.
  destruct (TotalFacts.dedupe_from_total rest first Hf Hr)
    as (ys & Hy & Hvalid & _).
  destruct (SegmentFacts.segments_from_valid ys [] Hvalid)
    as (segs & Hsegs & Hmatch).
  exists ys, segs. split; [exact Hy |].
  destruct (SegmentFacts.segments_from_separators (map Some ys) [] _ Hsegs)
    as (news & Heq & Hnews).
  cbn [app] in Heq. subst news.
  split; [| split; [exact Hmatch | exact Hnews]].
  unfold parse_captions. cbn [String.eqb Ascii.eqb Bool.eqb negb].
  rewrite Hparse. cbn [bind].
  unfold dedupe_yt_captions.
  change (dedupe_from None (first :: rest))
    with (dedupe_from (Some first) rest).
  rewrite Hy. cbn [bind].
  exact Hsegs.
Qed.

End ReportFacts.

(** X3.  When the parser returns one or more valid cues, the segments
    [parse_captions] returns stand one for one for the cues the merger
    yields, and their separators follow the gaps between these cues: the
    first segment has the empty separator; a later one has one space when
    its cue starts less than 1000 ms after the end of the cue before it, one
    line break when more than 1000 ms and less than 3000 ms after it, two
    line breaks when more than 3000 ms after it; at exactly 1000 ms it has
    the space or the line break, at exactly 3000 ms one or two line
    breaks. *)
Theorem segment_separators
  (from_string : string -> result (list Caption)) (content : string)
  (cues : list Caption) :
  from_string content = Ok cues ->
  cues <> [] ->
  Forall valid_cue cues ->
  exists ys segs,
    dedupe_yt_captions cues = Ok (map Some ys)
    /\ parse_captions from_string "vtt" content = Ok segs
    /\ separators_by_gap None ys segs.
Proof.
  intros Hparse Hne Hall.
  destruct (ReportFacts.parse_captions_matches from_string content cues
              Hparse Hne Hall) as (ys & segs & Hy & Hsegs & Hmatch & Hfollow).
  exists ys, segs. split; [exact Hy |]. split; [exact Hsegs |].
  exact (ReportFacts.follow_by_gap_first ys segs Hmatch Hfollow).
Qed.

Lemma segment_separators_witness :
  exists ys segs,
    dedupe_yt_captions
      [cue 0 2000 "one two three"; cue 4500 6000 "four five six";
       cue 9500 9900 "seven eight nine"]
    = Ok (map Some ys)
    /\ parse_captions
         (fun _ => Ok [cue 0 2000 "one two three"; cue 4500 6000 "four five six";
                       cue 9500 9900 "seven eight nine"])
         "vtt" "WEBVTT" = Ok segs
    /\ separators_by_gap None ys segs.
Proof.
  apply (segment_separators
           (fun _ => Ok [cue 0 2000 "one two three"; cue 4500 6000 "four five six";
                         cue 9500 9900 "seven eight nine"])
           "WEBVTT").
  - reflexivity.
  - discriminate.
  - repeat constructor; vm_compute; intuition discriminate.
Defined.

(** X4.  When the parser returns one or more valid cues, [parse_captions]
    raises no exception: it returns one segment for each cue the merger
    yields, in order, with that cue's timestamps as strings, the times of
    these timestamps in seconds to within a microsecond, and the cue's text
    on one line. *)
Theorem parse_captions_on_valid_cues
  (from_string : string -> result (list Caption)) (content : string)
  (cues : list Caption) :
  from_string content = Ok cues ->
  cues <> [] ->
  Forall valid_cue cues ->
  exists ys segs,
    dedupe_yt_captions cues = Ok (map Some ys)
    /\ parse_captions from_string "vtt" content = Ok segs
    /\ Forall2 segment_reports ys segs.
Proof.
  intros Hparse Hne Hall.
  destruct (ReportFacts.parse_captions_matches from_string content cues
              Hparse Hne Hall) as (ys & segs & Hy & Hsegs & Hmatch & _).
  exists ys, segs. split; [exact Hy |]. split; [exact Hsegs |].
  eapply Forall2_impl; [exact ReportFacts.matches_reports | exact Hmatch].
Qed.

Lemma parse_captions_on_valid_cues_witness :
  exists ys segs,
    dedupe_yt_captions
      [cue 0 2000 "one two three"; cue 4500 6000 "four five six"]
    = Ok (map Some ys)
    /\ parse_captions
         (fun _ => Ok [cue 0 2000 "one two three"; cue 4500 6000 "four five six"])
         "vtt" "WEBVTT" = Ok segs
    /\ Forall2 segment_reports ys segs.
Proof.
  apply (parse_captions_on_valid_cues
           (fun _ => Ok [cue 0 2000 "one two three"; cue 4500 6000 "four five six"])
           "WEBVTT").
  - reflexivity.
  - discriminate.
  - repeat constructor; vm_compute; intuition discriminate.
Defined.

(** ** The text of a segment *)

Module TextFacts.

Import DigitFacts.

Lemma replace_without (a b : ascii) (s : string) :
  Ascii.eqb b a = false -> all_chars (is_not a) (replace a b s) = true.
Proof.
  intros Hab. induction s as [| c s IH]; simpl; [reflexivity |].
  rewrite IH, andb_true_r. unfold is_not.
  destruct (Ascii.eqb c a) eqn:E; [now rewrite Hab | now rewrite E].
Qed.

Lemma lstrip_all (P : ascii -> bool) (s : string) :
  all_chars P s = true -> all_chars P (lstrip s) = true.
Proof.
  induction s as [| c s IH]; simpl; [reflexivity |].
  intros H. destruct (is_space c); [| exact H].
  apply andb_true_iff in H as [_ H]. auto.
Qed.

Lemma rstrip_all (P : ascii -> bool) (s : string) :
  all_chars P s = true -> all_chars P (rstrip s) = true.
Proof.
  induction s as [| c s IH]; simpl; [reflexivity |].
  intros H. apply andb_true_iff in H as [Hc Hs]. specialize (IH Hs).
  destruct (rstrip s).
  - destruct (is_space c); simpl; [reflexivity | now rewrite Hc].
  - simpl in IH |- *. now rewrite Hc, IH.
Qed.

Lemma collapse_eq (c : ascii) (s : string) :
  collapse_spaces (String c s)
  = if Ascii.eqb c sp then
      match s with
      | String c' _ =>
          if Ascii.eqb c' sp then collapse_spaces s
          else String c (collapse_spaces s)
      | EmptyString => String c EmptyString
      end
    else String c (collapse_spaces s).
Proof. reflexivity. Qed.

Lemma collapse_all (P : ascii -> bool) (s : string) :
  all_chars P s = true -> all_chars P (collapse_spaces s) = true.
Proof.
  induction s as [| c s IH]; [reflexivity |].
  intros H. change (P c && all_chars P s = true) in H.
  apply andb_true_iff in H as [Hc Hs]. specialize (IH Hs).
  rewrite collapse_eq.
  destruct (Ascii.eqb c sp).
  - destruct s as [| c' r]; [simpl; now rewrite Hc |].
    destruct (Ascii.eqb c' sp); [exact IH |].
    change (P c && all_chars P (collapse_spaces (String c' r)) = true).
    now rewrite Hc, IH.
  - change (P c && all_chars P (collapse_spaces s) = true).
    now rewrite Hc, IH.
Qed.

Lemma collapse_head (c : ascii) (r : string) :
  Ascii.eqb c sp = false ->
  collapse_spaces (String c r) = String c (collapse_spaces r).
Proof. intros H. now rewrite collapse_eq, H. Qed.

Lemma collapse_cons (c : ascii) (s : string) :
  exists c' r, collapse_spaces (String c s) = String c' r.
Proof.
  revert c. induction s as [| d s IH]; intros c; rewrite collapse_eq.
  - destruct (Ascii.eqb c sp); eauto.
  - destruct (Ascii.eqb c sp); [| eauto].
    destruct (Ascii.eqb d sp); [apply IH | eauto].
Qed.

Lemma collapse_no_double (s : string) :
  no_double_space (collapse_spaces s) = true.
Proof.
  induction s as [| c s IH]; [reflexivity |].
  rewrite collapse_eq.
  destruct (Ascii.eqb c sp) eqn:Ec.
  - destruct s as [| c' r]; [reflexivity |].
    destruct (Ascii.eqb c' sp) eqn:Ec'; [exact IH |].
    rewrite (collapse_head c' r Ec') in IH |- *.
    change (negb (Ascii.eqb c sp && Ascii.eqb c' sp)
            && no_double_space (String c' (collapse_spaces r)) = true).
    now rewrite Ec', andb_false_r, IH.
  - destruct (collapse_spaces s) as [| b r] eqn:E; [reflexivity |].
    change (negb (Ascii.eqb c sp && Ascii.eqb b sp)
            && no_double_space (String b r) = true).
    now rewrite Ec, IH.
Qed.

Lemma collapse_last (s : string) :
  last_char (collapse_spaces s) = last_char s.
Proof.
  induction s as [| c s IH]; [reflexivity |].
  destruct s as [| c' r].
  - rewrite collapse_eq. now destruct (Ascii.eqb c sp).
  - destruct (collapse_cons c' r) as (b & t & Eb).
    rewrite (collapse_eq c).
    change (last_char (String c (String c' r))) with (last_char (String c' r)).
    destruct (Ascii.eqb c sp).
    + destruct (Ascii.eqb c' sp); [exact IH |].
      rewrite Eb in IH |- *. exact IH.
    + rewrite Eb in IH |- *. exact IH.
Qed.

Lemma collapse_head_ok (s : string) : head_ok s -> head_ok (collapse_spaces s).
Proof.
  destruct s as [| c r]; [auto |]. intros Hc.
  change (is_space c = false) in Hc.
  assert (Ec : Ascii.eqb c sp = false).
  { destruct (Ascii.eqb_spec c sp) as [-> |]; [discriminate | reflexivity]. }
  rewrite (collapse_head c r Ec). exact Hc.
Qed.

Lemma lstrip_head_ok (s : string) : head_ok (lstrip s).
Proof.
  induction s as [| c s IH]; simpl; [exact I |].
  destruct (is_space c) eqn:E; [exact IH | exact E].
Qed.

Lemma rstrip_head_ok (s : string) : head_ok s -> head_ok (rstrip s).
Proof.
  destruct s as [| c r]; [auto |]. simpl. intros Hc. rewrite Hc.
  now destruct (rstrip r).
Qed.

Lemma rstrip_last_ok (s : string) : last_ok (rstrip s).
Proof.
  unfold last_ok. induction s as [| c s IH]; simpl; [exact I |].
  destruct (rstrip s) as [| b r].
  - destruct (is_space c) eqn:E; simpl; [exact I | exact E].
  - exact IH.
Qed.

Lemma head_ok_lstrip (s : string) : head_ok s -> lstrip s = s.
Proof. destruct s as [| c r]; simpl; [auto |]. now intros ->. Qed.

Lemma last_ok_rstrip (s : string) : last_ok s -> rstrip s = s.
Proof.
  unfold last_ok. induction s as [| c s IH]; [reflexivity |].
  destruct s as [| c' r].
  - simpl. now intros ->.
  - change (last_char (String c (String c' r))) with (last_char (String c' r)).
    intros H. cbn [rstrip] in IH |- *. now rewrite (IH H).
Qed.

Lemma collapse_strip_one_line (s : string) :
  all_chars (is_not nl) s = true ->
  one_line (collapse_spaces (strip s)).
Proof.
  intros H. unfold one_line, strip. split; [| split].
  - now apply collapse_all, rstrip_all, lstrip_all.
  - apply collapse_no_double.
  - rewrite head_ok_lstrip.
    + apply last_ok_rstrip. unfold last_ok. rewrite collapse_last.
      apply rstrip_last_ok.
    + apply collapse_head_ok, rstrip_head_ok, lstrip_head_ok.
Qed.

Lemma segment_of_one_line (idx : nat) (acc : list Segment)
  (cap : option Caption) (seg : Segment) :
  segment_of idx acc cap = Ok seg -> one_line (seg_text seg).
Proof.
  unfold segment_of. destruct cap as [c |]; [| discriminate].
  destruct (_timestamp_to_seconds (get_start c)); [| discriminate].
  destruct (_timestamp_to_seconds (get_end c)); [| discriminate].
  cbn [bind].
  assert (H : one_line (collapse_spaces (strip (replace nl sp (text c))))).
  { apply collapse_strip_one_line, replace_without. reflexivity. }
  destruct (idx =? 0)%nat; cbn [bind]; [now intros [= <-] |].
  destruct (rev acc); [discriminate |].
  destruct (Qltb 3 _); [| destruct (Qltb 1 _)]; cbn [bind]; now intros [= <-].
Qed.

Lemma segments_from_one_line (caps : list (option Caption)) :
  forall (idx : nat) (acc out : list Segment),
    Forall (fun s => one_line (seg_text s)) acc ->
    segments_from idx acc caps = Ok out ->
    Forall (fun s => one_line (seg_text s)) out.
Proof.
  induction caps as [| cap caps IH]; intros idx acc out Hacc;
    cbn [segments_from].
  - now intros [= <-].
  - destruct (segment_of idx acc cap) as [seg |] eqn:E; [| discriminate].
    cbn [bind]. apply IH. apply Forall_app. split; [exact Hacc |].
    constructor; [| constructor]. exact (segment_of_one_line _ _ _ _ E).
Qed.

End TextFacts.

(** X5.  The text of every segment that [parse_captions] returns is on one
    line: it has no line break, no two spaces in a row, and no white space
    at its start or end. *)
Theorem segment_text_one_line
  (from_string : string -> result (list Caption)) (ext content : string)
  (segs : list Segment) :
  parse_captions from_string ext content = Ok segs ->
  Forall (fun s => one_line (seg_text s)) segs.
Proof.
  unfold parse_captions. destruct (negb _); [discriminate |].
  destruct (from_string content) as [raw |]; [| discriminate]. cbn [bind].
  destruct (dedupe_yt_captions raw) as [caps |]; [| discriminate]. cbn [bind].
  apply TextFacts.segments_from_one_line. constructor.
Qed.

Lemma segment_text_one_line_witness :
  exists segs,
    parse_captions
      (fun _ => Ok [cue 0 2000 (lines2 " one  two" "three ")])
      "vtt" "WEBVTT" = Ok segs
    /\ Forall (fun s => one_line (seg_text s)) segs.
Proof.
  eexists. split; [vm_compute; reflexivity |].
  apply (segment_text_one_line
           (fun _ => Ok [cue 0 2000 (lines2 " one  two" "three ")])
           "vtt" "WEBVTT").
  vm_compute. reflexivity.
Defined.

(** ** The order of preference of the track selector *)

Module SelectorFacts.

Lemma first_listed_some {V : Type} (langs : list string) (d : dict V) (v : V) :
  first_listed langs d = Some v <->
  exists pre lang post,
    langs = (pre ++ lang :: post)%list /\ lookup lang d = Some v
    /\ Forall (fun l => lookup l d = None) pre.
Proof.
  split.
  - induction langs as [| l langs IH]; simpl; [discriminate |].
    destruct (lookup l d) as [w |] eqn:E.
    + intros [= ->]. exists [], l, langs. auto.
    + intros H. destruct (IH H) as (pre & lang & post & -> & Hl & Hpre).
      exists (l :: pre), lang, post. repeat split; auto.
  - intros (pre & lang & post & -> & Hl & Hpre).
    induction Hpre as [| l pre Hl' _ IH]; simpl.
    + now rewrite Hl.
    + now rewrite Hl'.
Qed.

Lemma first_en_variant_some {V : Type} (d : dict V) (lang : string) (v : V)
  (pre post : dict V) :
  d = (pre ++ (lang, v) :: post)%list ->
  startswith lang "en-" = true ->
  Forall (fun kv => startswith (fst kv) "en-" = false) pre ->
  first_en_variant d = Some v.
Proof.
  intros -> Hl Hpre. induction Hpre as [| [k w] pre Hk _ IH]; simpl.
  - rewrite Hl. reflexivity.
  - simpl in Hk. rewrite Hk. exact IH.
Qed.

Lemma lookup_some_nonempty {V : Type} (k : string) (d : dict V) (v : V) :
  lookup k d = Some v -> truthy_dict (Some d) = Some d.
Proof. destruct d; [discriminate | reflexivity]. Qed.

Lemma first_track_some_iff (f : string) (tracks : list Track) (t : Track) :
  first_track f tracks = Some t <->
  exists pre post,
    tracks = (pre ++ t :: post)%list /\ skipped t = false
    /\ has_ext f t = true /\ Forall (passed_over f) pre.
Proof.
  split.
  - induction tracks as [| t' tracks IH]; simpl; [discriminate |].
    destruct (skipped t') eqn:Hs.
    + intros H. destruct (IH H) as (pre & post & -> & ? & ? & Hpre).
      exists (t' :: pre), post. repeat split; auto.
      constructor; [now left | exact Hpre].
    + destruct (has_ext f t') eqn:He.
      * intros [= <-]. exists [], tracks. auto.
      * intros H. destruct (IH H) as (pre & post & -> & ? & ? & Hpre).
        exists (t' :: pre), post. repeat split; auto.
        constructor; [now right | exact Hpre].
  - intros (pre & post & -> & Hs & He & Hpre).
    induction Hpre as [| t' pre [Hs' | He'] _ IH]; simpl.
    + now rewrite Hs, He.
    + now rewrite Hs'.
    + destruct (skipped t'); [exact IH | now rewrite He'].
Qed.

Lemma first_track_none_iff (f : string) (tracks : list Track) :
  first_track f tracks = None <-> Forall (passed_over f) tracks.
Proof.
  split.
  - induction tracks as [| t tracks IH]; simpl; [constructor |].
    destruct (skipped t) eqn:Hs.
    + intros H. constructor; [now left | auto].
    + destruct (has_ext f t) eqn:He; [discriminate |].
      intros H. constructor; [now right | auto].
  - intros H. induction H as [| t tracks [Hs | He] _ IH]; simpl; auto.
    + now rewrite Hs.
    + destruct (skipped t); [exact IH | now rewrite He].
Qed.

Lemma first_format_some_iff (formats : list string) (tracks : list Track)
  (t : Track) :
  first_format formats tracks = Some t <->
  exists fpre f fpost,
    formats = (fpre ++ f :: fpost)%list /\ first_track f tracks = Some t
    /\ Forall (fun f' => first_track f' tracks = None) fpre.
Proof.
  split.
  - induction formats as [| f formats IH]; simpl; [discriminate |].
    destruct (first_track f tracks) as [t' |] eqn:E.
    + intros [= ->]. exists [], f, formats. auto.
    + intros H. destruct (IH H) as (fpre & f' & fpost & -> & Hf & Hpre).
      exists (f :: fpre), f', fpost. repeat split; auto.
  - intros (fpre & f & fpost & -> & Hf & Hpre).
    induction Hpre as [| f' fpre Hf' _ IH]; simpl.
    + now rewrite Hf.
    + now rewrite Hf'.
Qed.

End SelectorFacts.

(** X6.  Manual subtitles come first and in the order en-US, en-CA, en: when
    the subtitles have a non-empty track list under one of these languages
    and no entry under the languages listed before it, that list is the one
    selected, whatever the automatic captions are and wherever the language
    sits in the dictionary. *)
Theorem manual_language_selected (info : Info) (subs : dict (list Track))
  (pre post : list string) (lang : string) (tracks : list Track) :
  subtitles info = Some subs ->
  subtitle_priorities = (pre ++ lang :: post)%list ->
  Forall (fun l => lookup l subs = None) pre ->
  lookup lang subs = Some tracks ->
  tracks <> [] ->
  select_language info = Some tracks.
Proof.
  intros Hsubs Hprio Hpre Hlang Hne. unfold select_language.
  rewrite Hsubs, (SelectorFacts.lookup_some_nonempty lang subs tracks Hlang).
  assert (Hfirst : first_listed subtitle_priorities subs = Some tracks).
  { apply SelectorFacts.first_listed_some. exists pre, lang, post. auto. }
  rewrite Hfirst. destruct tracks; [congruence | reflexivity].
Qed.

Lemma manual_language_selected_witness :
  let en_ca := [mkTrack (Some "English (Canada)") None (Some "vtt") None] in
  let info :=
    mkInfo (Some [("en", [mkTrack (Some "English") None (Some "vtt") None]);
                  ("en-CA", en_ca)])
           (Some [("en-orig", [mkTrack (Some "auto") None (Some "vtt") None])]) in
  select_language info = Some en_ca.
Proof.
  cbv zeta.
  eapply manual_language_selected
    with (pre := ["en-US"]) (post := ["en"]) (lang := "en-CA").
  - reflexivity.
  - reflexivity.
  - repeat constructor.
  - reflexivity.
  - discriminate.
Defined.

(** X7.  When none of en-US, en-CA and en is a key of the subtitles, the
    first key in the order of the dictionary that starts with "en-" gives
    the selected list, provided the list is not empty. *)
Theorem manual_variant_selected (info : Info)
  (pre post : dict (list Track)) (lang : string) (tracks : list Track) :
  subtitles info = Some (pre ++ (lang, tracks) :: post)%list ->
  Forall (fun l => lookup l (pre ++ (lang, tracks) :: post)%list = None)
         subtitle_priorities ->
  Forall (fun kv => startswith (fst kv) "en-" = false) pre ->
  startswith lang "en-" = true ->
  tracks <> [] ->
  select_language info = Some tracks.
Proof.
  intros Hsubs Hnone Hpre Hlang Hne. unfold select_language. rewrite Hsubs.
  set (subs := (pre ++ (lang, tracks) :: post)%list) in *.
  assert (Ht : truthy_dict (Some subs) = Some subs).
  { subst subs. now destruct pre. }
  rewrite Ht.
  assert (Hfirst : first_listed subtitle_priorities subs = None).
  { destruct (first_listed subtitle_priorities subs) as [v |] eqn:E;
      [| reflexivity].
    apply SelectorFacts.first_listed_some in E
      as (p & l & q & Hp & Hl & _).
    rewrite Forall_forall in Hnone.
    rewrite (Hnone l) in Hl; [discriminate |].
    rewrite Hp. apply in_elt. }
  rewrite Hfirst.
  rewrite (SelectorFacts.first_en_variant_some subs lang tracks pre post
             eq_refl Hlang Hpre).
  destruct tracks; [congruence | reflexivity].
Qed.

Lemma manual_variant_selected_witness :
  let en_gb := [mkTrack (Some "English (UK)") None (Some "vtt") None] in
  let info :=
    mkInfo (Some [("de", [mkTrack (Some "Deutsch") None (Some "vtt") None]);
                  ("en-GB", en_gb);
                  ("en-AU", [mkTrack (Some "English (AU)") None (Some "vtt") None])])
           None in
  select_language info = Some en_gb.
Proof.
  cbv zeta.
  eapply manual_variant_selected
    with (pre := [("de", [mkTrack (Some "Deutsch") None (Some "vtt") None])])
         (lang := "en-GB").
  - reflexivity.
  - repeat constructor.
  - repeat constructor.
  - reflexivity.
  - discriminate.
Defined.

(** X8.  An empty track list under the chosen manual language counts as no
    manual subtitles, whether the language was chosen from the list en-US,
    en-CA, en or as the first key that starts with "en-": the automatic
    captions are then consulted in the order en-orig, en-US, en-CA, en, and
    the list of the first of these that is a key is selected. *)
Theorem empty_manual_list_falls_back (info : Info)
  (subs autos : dict (list Track)) (apre apost : list string)
  (alang : string) (tracks : list Track) :
  subtitles info = Some subs ->
  listed_choice subs [] \/ variant_choice subs [] ->
  automatic_captions info = Some autos ->
  auto_caption_priorities = (apre ++ alang :: apost)%list ->
  Forall (fun l => lookup l autos = None) apre ->
  lookup alang autos = Some tracks ->
  select_language info = Some tracks.
Proof.
  intros Hsubs Hchoice Hautos Haprio Hapre Halang.
  assert (Hafirst : first_listed auto_caption_priorities autos = Some tracks).
  { apply SelectorFacts.first_listed_some. exists apre, alang, apost. auto. }
  assert (Hmanual : exists kv rest,
             subs = kv :: rest
             /\ match first_listed subtitle_priorities subs with
                | Some t => Some t
                | None => first_en_variant subs
                end = Some []).
  { destruct Hchoice as [(pre & lang & post & Hprio & Hpre & Hlang)
                        | (pre & lang & post & Hdict & Hnone & Hpre & Hlang)].
    - assert (Hfirst : first_listed subtitle_priorities subs = Some []).
      { apply SelectorFacts.first_listed_some. exists pre, lang, post. auto. }
      rewrite Hfirst.
      destruct subs as [| kv rest]; [discriminate |].
      exists kv, rest. auto.
    - assert (Hfirst : first_listed subtitle_priorities subs = None).
      { destruct (first_listed subtitle_priorities subs) as [v |] eqn:E;
          [| reflexivity].
        apply SelectorFacts.first_listed_some in E
          as (p & l & q & Hp & Hl & _).
        rewrite Forall_forall in Hnone.
        rewrite (Hnone l) in Hl; [discriminate |].
        rewrite Hp. apply in_elt. }
      rewrite Hfirst.
      rewrite (SelectorFacts.first_en_variant_some subs lang [] pre post
                 Hdict Hlang Hpre).
      destruct subs as [| kv rest]; [now destruct pre |].
      exists kv, rest. auto. }
  destruct Hmanual as (kv & rest & -> & Hmanual).
  unfold select_language. rewrite Hsubs. cbn [truthy_dict].
  rewrite Hmanual. cbn [falsy].
  rewrite Hautos, (SelectorFacts.lookup_some_nonempty alang autos tracks Halang).
  now rewrite Hafirst.
Qed.

Lemma empty_manual_list_falls_back_witness :
  let auto_en := [mkTrack (Some "English (auto)") None (Some "vtt") None] in
  let info :=
    mkInfo (Some [("de", [mkTrack (Some "Deutsch") None (Some "vtt") None]);
                  ("en-GB", [])])
           (Some [("en", auto_en)]) in
  select_language info = Some auto_en.
Proof.
  cbv zeta.
  eapply empty_manual_list_falls_back
    with (apre := ["en-orig"; "en-US"; "en-CA"]) (apost := []) (alang := "en").
  - reflexivity.
  - right.
    exists [("de", [mkTrack (Some "Deutsch") None (Some "vtt") None])],
           "en-GB", [].
    split; [reflexivity |]. split; [repeat constructor |].
    split; [repeat constructor | reflexivity].
  - reflexivity.
  - reflexivity.
  - repeat constructor.
  - reflexivity.
Defined.

(** X9.  Formats are tried in the order vtt, srt, ttml before the order of
    the list.  The track returned has one of the three formats [f]; it is the
    first track of the selected list that is not skipped and has the format
    [f]; and every track of the list is skipped or lacks each format listed
    before [f].  Conversely, when some track of the selected list is not
    skipped and has one of the three formats, a track is returned. *)
Theorem format_order_before_list_order (info : Info) :
  (forall t,
     get_captions_by_priority info = Some t ->
     exists tracks fpre f fpost pre post,
       select_language info = Some tracks
       /\ format_priorities = (fpre ++ f :: fpost)%list
       /\ tracks = (pre ++ t :: post)%list
       /\ skipped t = false /\ has_ext f t = true
       /\ Forall (passed_over f) pre
       /\ Forall (fun f' => Forall (passed_over f') tracks) fpre)
  /\ (forall tracks t f,
        select_language info = Some tracks ->
        In t tracks -> skipped t = false ->
        In f format_priorities -> has_ext f t = true ->
        exists t', get_captions_by_priority info = Some t').
Proof.
  unfold get_captions_by_priority. split.
  - intros t. destruct (select_language info) as [tracks |]; [| discriminate].
    destruct (falsy (Some tracks)); [discriminate |].
    intros H. apply SelectorFacts.first_format_some_iff in H
      as (fpre & f & fpost & Hf & Ht & Hpre).
    apply SelectorFacts.first_track_some_iff in Ht
      as (pre & post & Htr & Hs & He & Hp).
    exists tracks, fpre, f, fpost, pre, post. repeat split; auto.
    eapply Forall_impl; [| exact Hpre].
    intros f'. apply SelectorFacts.first_track_none_iff.
  - intros tracks t f -> Hin Hs Hf He.
    destruct tracks as [| t0 tracks]; [destruct Hin |]. cbn [falsy].
    destruct (first_format format_priorities (t0 :: tracks)) as [t' |] eqn:E;
      [eauto |].
    exfalso.
    assert (Hnone : forall fs, first_format fs (t0 :: tracks) = None ->
                               In f fs -> first_track f (t0 :: tracks) = None).
    { induction fs as [| f0 fs IH]; [intros _ [] |].
      cbn [first_format].
      destruct (first_track f0 (t0 :: tracks)) eqn:E0; [discriminate |].
      intros H [<- | Hin']; auto. }
    specialize (Hnone _ E Hf).
    apply SelectorFacts.first_track_none_iff in Hnone.
    rewrite Forall_forall in Hnone.
    destruct (Hnone t Hin); congruence.
Qed.

Lemma format_order_before_list_order_witness :
  let srt := mkTrack (Some "English") None (Some "srt") None in
  let vtt := mkTrack (Some "English") None (Some "vtt") None in
  let hls := mkTrack (Some "English") (Some "m3u8_native") (Some "vtt") None in
  let info := mkInfo (Some [("en", [srt; hls; vtt])]) None in
  exists t', get_captions_by_priority info = Some t'.
Proof.
  cbv zeta.
  eapply (proj2 (format_order_before_list_order _))
    with (t := mkTrack (Some "English") None (Some "vtt") None) (f := "vtt").
  - reflexivity.
  - right. right. left. reflexivity.
  - reflexivity.
  - left. reflexivity.
  - reflexivity.
Defined.

(** ** Timestamps with too few or too many fields *)

Module SplitFacts.

Lemma split_cons (sep : ascii) (s : string) :
  exists h t, split sep s = h :: t.
Proof.
  induction s as [| c s (h & t & IH)]; simpl; [eauto |].
  destruct (Ascii.eqb c sep); [eauto |]. rewrite IH. eauto.
Qed.

(** Splitting distributes over a separator in the middle. *)
Lemma split_join (sep : ascii) (a b : string) :
  split sep (a ++ String sep b) = (split sep a ++ split sep b)%list.
Proof.
  induction a as [| c a IH]; simpl.
  - now rewrite Ascii.eqb_refl.
  - destruct (Ascii.eqb c sep); [now rewrite IH |].
    rewrite IH. destruct (split_cons sep a) as (h & t & ->). reflexivity.
Qed.

Lemma index_app {A : Type} (l l' : list A) (i : nat) :
  (i < List.length l)%nat -> index (l ++ l') i = index l i.
Proof.
  intros H. unfold index. now rewrite nth_error_app1.
Qed.

End SplitFacts.

(** X10.  [_timestamp_to_seconds] needs three fields: on a string with fewer
    than two colons it raises ValueError or IndexError and never returns a
    number.  It ignores what follows a third colon: appending a colon and
    any text to a string of three or more fields changes nothing. *)
Theorem timestamp_to_seconds_fields_needed (timestamp : string) :
  ((List.length (split ":" timestamp) < 3)%nat ->
   exists msg,
     _timestamp_to_seconds timestamp = Raise (ValueError msg)
     \/ _timestamp_to_seconds timestamp = Raise (IndexError msg))
  /\ ((3 <= List.length (split ":" timestamp))%nat ->
      forall rest,
        _timestamp_to_seconds (timestamp ++ ":" ++ rest)
        = _timestamp_to_seconds timestamp).
Proof.
  split.
  - unfold _timestamp_to_seconds.
    destruct (split ":" timestamp) as [| a [| b [| c l]]]; cbn [List.length];
      intros H; try lia.
    + eexists. right. reflexivity.
    + cbn [index nth_error bind]. unfold to_float.
      destruct (float_of_string a); cbn [bind]; eexists; eauto.
    + cbn [index nth_error bind]. unfold to_float.
      destruct (float_of_string a); cbn [bind]; [| eexists; eauto].
      destruct (float_of_string b); cbn [bind]; eexists; eauto.
  - intros H rest. unfold _timestamp_to_seconds.
    change (timestamp ++ ":" ++ rest)%string
      with (timestamp ++ String ":" rest)%string.
    rewrite SplitFacts.split_join.
    now rewrite !SplitFacts.index_app by lia.
Qed.

Lemma timestamp_to_seconds_fields_needed_witness :
  (exists msg,
     _timestamp_to_seconds "01:02.500" = Raise (ValueError msg)
     \/ _timestamp_to_seconds "01:02.500" = Raise (IndexError msg))
  /\ _timestamp_to_seconds ("00:01:02.500" ++ ":" ++ "x")
     = _timestamp_to_seconds "00:01:02.500".
Proof.
  split.
  - apply (proj1 (timestamp_to_seconds_fields_needed "01:02.500")).
    vm_compute. lia.
  - apply (proj2 (timestamp_to_seconds_fields_needed "00:01:02.500")).
    vm_compute. lia.
Defined.

(** ** Blank cues *)

Lemma dedupe_from_blank (a : list Caption) :
  forall (p : Caption) (c : Caption) (b : list Caption),
    strip (text c) = "" ->
    dedupe_from (Some p) (a ++ c :: b) = dedupe_from (Some p) (a ++ b).
Proof.
  induction a as [| x a IH]; intros p c b Hc.
  - cbn [app dedupe_from]. unfold iteration. cbn [set_text text].
    rewrite Hc. cbn [length Nat.eqb bind].
    now destruct (dedupe_from (Some p) b).
  - cbn [app dedupe_from].
    destruct (iteration p x) as [[yl p'] |]; cbn [bind]; [| reflexivity].
    now rewrite (IH p' c b Hc).
Qed.

(** X11.  A cue after the first whose text is empty or only white space has
    no effect at all: the merger yields the same with it and without it. *)
Theorem blank_cue_has_no_effect (first : Caption) (a b : list Caption)
  (c : Caption) :
  strip (text c) = "" ->
  dedupe_yt_captions (first :: a ++ c :: b)
  = dedupe_yt_captions (first :: a ++ b).
Proof.
  intros Hc. unfold dedupe_yt_captions. cbn [dedupe_from].
  now apply dedupe_from_blank.
Qed.

Lemma blank_cue_has_no_effect_witness :
  dedupe_yt_captions
    (cue 0 1000 "one two three" :: [] ++ cue 5000 9000 "  " :: [cue 2000 3000 "four five six"])
  = dedupe_yt_captions
      (cue 0 1000 "one two three" :: [] ++ [cue 2000 3000 "four five six"]).
Proof.
  apply (blank_cue_has_no_effect (cue 0 1000 "one two three") []
           [cue 2000 3000 "four five six"] (cue 5000 9000 "  ")).
  reflexivity.
Defined.

(** ** Formatting any number of seconds *)

Module RoundFacts.

Import DigitFacts ParseFacts TimestampFacts.

Local Open Scope Q_scope.

Lemma round_half_even_near (x : Q) :
  inject_Z (round_half_even x) - (1 # 2) <= x
  /\ x <= inject_Z (round_half_even x) + (1 # 2).
Proof.
  unfold round_half_even.
  pose proof (Qfloor_le x) as Hlo. pose proof (Qlt_floor x) as Hhi.
  rewrite inject_Z_plus in Hhi. change (inject_Z 1) with 1 in Hhi.
  set (f := Qfloor x) in *. cbv zeta.
  destruct (Qcompare_spec (x - inject_Z f) (1 # 2)) as [He | Hl | Hg].
  - destruct (Z.even f);
      [| rewrite inject_Z_plus; change (inject_Z 1) with 1]; lra.
  - lra.
  - rewrite inject_Z_plus. change (inject_Z 1) with 1. lra.
Qed.

Lemma round_half_even_nonneg (x : Q) : 0 <= x -> (0 <= round_half_even x)%Z.
Proof.
  intros Hx. unfold round_half_even.
  assert (Hf : (0 <= Qfloor x)%Z).
  { change 0%Z with (Qfloor 0). now apply Qfloor_resp_le. }
  cbv zeta. destruct (Qcompare _ _); [destruct (Z.even _) | |]; lia.
Qed.

(** Floor division by a positive whole number and its remainder. *)
Lemma floordiv_pymod (x : Q) (n : positive) :
  0 <= x ->
  (0 <= floordiv x (Zpos n # 1))%Z
  /\ x == inject_Z (Zpos n) * inject_Z (floordiv x (Zpos n # 1))
          + pymod x (Zpos n # 1)
  /\ 0 <= pymod x (Zpos n # 1).
Proof.
  intros Hx. unfold pymod, floordiv.
  change (Zpos n # 1) with (inject_Z (Zpos n)).
  assert (Hn : 0 < inject_Z (Zpos n)) by (rewrite <- Zlt_Qlt with (x := 0%Z); lia).
  set (d := x / inject_Z (Zpos n)).
  assert (Hd : x == inject_Z (Zpos n) * d).
  { unfold d. field. intros H. rewrite H in Hn. discriminate. }
  assert (Hd0 : 0 <= d).
  { unfold d. apply Qle_shift_div_l; [exact Hn | now rewrite Qmult_0_l]. }
  pose proof (Qfloor_le d) as Hlo.
  split; [| split].
  - change 0%Z with (Qfloor 0). now apply Qfloor_resp_le.
  - ring.
  - rewrite Hd at 1.
    setoid_replace (inject_Z (Z.pos n) * d - inject_Z (Z.pos n) * inject_Z (Qfloor d))
      with (inject_Z (Z.pos n) * (d - inject_Z (Qfloor d))) by ring.
    apply Qmult_le_0_compat; [now apply Qlt_le_weak | lra].
Qed.

(** The seconds field for any number of seconds that is not negative. *)
Lemma fmt_06_3f_nonneg (x : Q) :
  0 <= x ->
  let r := round_half_even (x * 1000) in
  fmt_06_3f x = (zfill 2 (dec (r / 1000)) ++ "." ++ fmt_03d (r mod 1000))%string.
Proof.
  intros Hx. cbv zeta. unfold fmt_06_3f.
  assert (Hr : (0 <= round_half_even (x * 1000))%Z).
  { apply round_half_even_nonneg. apply Qmult_le_0_compat; [exact Hx | discriminate]. }
  set (r := round_half_even (x * 1000)) in *.
  rewrite Z.abs_eq by exact Hr.
  destruct (Z.ltb_spec r 0) as [| _]; [lia |].
  fold (fmt_03d (r mod 1000)).
  apply (zfill_app_tail 2 4).
  simpl. now rewrite length_fmt_03d by (apply Z.mod_pos_bound; lia).
Qed.

End RoundFacts.

Module ShapeFacts.

Import DigitFacts ParseFacts TimestampFacts.

Local Open Scope Q_scope.

Lemma pymod_below (x : Q) (n : positive) :
  pymod x (Zpos n # 1) < inject_Z (Zpos n).
Proof.
  unfold pymod, floordiv.
  change (Zpos n # 1) with (inject_Z (Zpos n)).
  assert (Hn : 0 < inject_Z (Zpos n)) by (rewrite <- Zlt_Qlt with (x := 0%Z); lia).
  set (d := x / inject_Z (Zpos n)).
  assert (Hd : x == inject_Z (Zpos n) * d).
  { unfold d. field. intros H. rewrite H in Hn. discriminate. }
  pose proof (Qlt_floor d) as Hhi.
  rewrite inject_Z_plus in Hhi. change (inject_Z 1) with 1 in Hhi.
  rewrite Hd at 1.
  setoid_replace (inject_Z (Z.pos n) * d - inject_Z (Z.pos n) * inject_Z (Qfloor d))
    with (inject_Z (Z.pos n) * (d - inject_Z (Qfloor d))) by ring.
  rewrite <- (Qmult_1_r (inject_Z (Z.pos n))) at 2.
  apply Qmult_lt_l; [exact Hn | lra].
Qed.

Lemma length_two_digits (n : Z) :
  (0 <= n < 100)%Z -> length (zfill 2 (dec n)) = 2%nat.
Proof.
  intros Hn. rewrite length_zfill.
  pose proof (StringFacts.length_dec_below_100 n Hn). lia.
Qed.

Lemma length_fields (h m s ms : Z) :
  (0 <= h < 100)%Z -> (0 <= m < 100)%Z -> (0 <= s < 100)%Z ->
  (0 <= ms < 1000)%Z ->
  length (zfill 2 (dec h) ++ ":" ++ zfill 2 (dec m) ++ ":"
          ++ zfill 2 (dec s) ++ "." ++ fmt_03d ms) = 12%nat.
Proof.
  intros Hh Hm Hs Hms.
  rewrite length_app, (length_two_digits h Hh). cbn [append length].
  rewrite length_app, (length_two_digits m Hm). cbn [append length].
  rewrite length_app, (length_two_digits s Hs). cbn [append length].
  now rewrite (length_fmt_03d ms Hms).
Qed.

End ShapeFacts.

(** X12.  For every number of seconds [s] from 0 to below 100 hours, whole
    milliseconds or not, the string the formatter writes for [s] has the
    twelve characters of HH:MM:SS.mmm, and parsing it succeeds and gives a
    number less than a millisecond from [s]. *)
Theorem format_then_parse_within_one_ms (s : Q) :
  (0 <= s)%Q -> (s < 360000)%Q ->
  length (_seconds_to_timestamp s) = 12%nat
  /\ exists q,
       _timestamp_to_seconds (_seconds_to_timestamp s) = Ok q
       /\ (Qabs (q - s) < 1 # 1000)%Q.
Proof.
  intros Hs Hs100. unfold _seconds_to_timestamp.
  destruct (RoundFacts.floordiv_pymod s 3600 Hs) as (Hh & Hsplit & Hrem).
  destruct (RoundFacts.floordiv_pymod (pymod s 3600) 60 Hrem)
    as (Hm & Hsplit' & Hsec).
  pose proof (ShapeFacts.pymod_below s 3600) as Hrem'.
  pose proof (ShapeFacts.pymod_below (pymod s 3600) 60) as Hsec'.
  set (h := floordiv s 3600) in *.
  set (m := floordiv (pymod s 3600) 60) in *.
  set (sec := pymod (pymod s 3600) 60) in *.
  rewrite (RoundFacts.fmt_06_3f_nonneg sec Hsec). cbv zeta.
  assert (Hr : 0 <= round_half_even (sec * 1000)).
  { apply RoundFacts.round_half_even_nonneg.
    apply Qmult_le_0_compat; [exact Hsec | discriminate]. }
  destruct (RoundFacts.round_half_even_near (sec * 1000)) as [Hlo Hhi].
  set (r := round_half_even (sec * 1000)) in *.
  rewrite !TimestampFacts.fmt_02d_nonneg by assumption.
  change (inject_Z 3600) with 3600%Q in Hsplit, Hrem'.
  change (inject_Z 60) with 60%Q in Hsplit', Hsec'.
  assert (Hh100 : h < 100).
  { rewrite Zlt_Qlt. change (inject_Z 100) with 100%Q. lra. }
  assert (Hm60 : m < 60).
  { rewrite Zlt_Qlt. change (inject_Z 60) with 60%Q. lra. }
  assert (Hr60 : r < 60001).
  { rewrite Zlt_Qlt. change (inject_Z 60001) with 60001%Q. lra. }
  split.
  - apply ShapeFacts.length_fields; try lia.
    + split; [apply Z.div_pos; lia |].
      apply Z.div_lt_upper_bound; lia.
    + apply Z.mod_pos_bound; lia.
  - rewrite TimestampFacts.timestamp_to_seconds_fields;
      [| exact Hh | exact Hm | apply Z.div_pos; lia
       | apply Z.mod_pos_bound; lia].
    eexists. split; [reflexivity |].
    assert (Hrq : (inject_Z (r / 1000) + inject_Z (r mod 1000) / 1000
                   == inject_Z r * (1 # 1000))%Q).
    { rewrite (Z.div_mod r 1000) at 3 by lia.
      rewrite inject_Z_plus, inject_Z_mult. field. }
    rewrite Hrq.
    apply Qabs_Qlt_condition. split; lra.
Qed.

Lemma format_then_parse_within_one_ms_witness :
  length (_seconds_to_timestamp (599996 # 10000)) = 12%nat
  /\ exists q,
       _timestamp_to_seconds (_seconds_to_timestamp (599996 # 10000)) = Ok q
       /\ (Qabs (q - (599996 # 10000)) < 1 # 1000)%Q.
Proof.
  apply (format_then_parse_within_one_ms (599996 # 10000)).
  - discriminate.
  - reflexivity.
Defined.

(** ** The label and the signs of [convert_caption_data] *)

Module LabelFacts.

Import DigitFacts ParseFacts TimestampFacts SplitFacts.

Lemma split_prefix_length (sep : ascii) (a s : string) :
  all_chars (is_not sep) a = true ->
  List.length (split sep (a ++ s)) = List.length (split sep s).
Proof.
  induction a as [| c a IH]; [reflexivity |].
  intros H. change (is_not sep c && all_chars (is_not sep) a = true) in H.
  apply andb_true_iff in H as [Hc Ha]. unfold is_not in Hc.
  apply negb_true_iff in Hc. cbn [append split]. rewrite Hc.
  destruct (split_cons sep (a ++ s)) as (h & t & E).
  rewrite <- (IH Ha), E. reflexivity.
Qed.

Lemma dec_without (sep : ascii) (n : Z) :
  is_digit sep = false -> all_chars (is_not sep) (dec n) = true.
Proof. intros H. apply digits_without; [exact H | apply dec_digits]. Qed.

Lemma clock_three_fields (hh mm ss : Z) :
  0 <= mm -> 0 <= ss ->
  List.length (split ":" (dec hh ++ ":" ++ fmt_02d mm ++ ":" ++ fmt_02d ss))
  = 3%nat.
Proof.
  intros Hm Hs. rewrite !fmt_02d_nonneg by assumption.
  change (dec hh ++ ":" ++ ?r)%string with (dec hh ++ String ":" r)%string.
  rewrite split_app by (now apply dec_without).
  change (zfill 2 (dec mm) ++ ":" ++ ?r)%string
    with (zfill 2 (dec mm) ++ String ":" r)%string.
  rewrite split_app
    by (apply digits_without; [reflexivity | apply zfill_digits, dec_digits]).
  rewrite split_without
    by (apply digits_without; [reflexivity | apply zfill_digits, dec_digits]).
  reflexivity.
Qed.

Lemma timedelta_three_fields (n : Z) (s : string) :
  timedelta_str n = Ok s -> List.length (split ":" s) = 3%nat.
Proof.
  unfold timedelta_str.
  destruct (999999999 <? Z.abs (n / 86400)); [discriminate |].
  pose proof (Z.mod_pos_bound n 86400 ltac:(lia)) as Hsecs.
  pose proof (Z.mod_pos_bound (n mod 86400) 60 ltac:(lia)) as Hss.
  pose proof (Z.mod_pos_bound (n mod 86400 / 60) 60 ltac:(lia)) as Hmm.
  pose proof (clock_three_fields (n mod 86400 / 60 / 60)
                (n mod 86400 / 60 mod 60) (n mod 86400 mod 60)
                (proj1 Hmm) (proj1 Hss)) as Hclock.
  cbv zeta iota beta. intros [= <-].
  destruct (n / 86400 =? 0); [exact Hclock |].
  rewrite split_prefix_length.
  2: { destruct (n / 86400 <? 0).
       - change (is_not ":" "-" && all_chars (is_not ":") (dec (- (n / 86400)))
                 = true).
         now rewrite dec_without.
       - now apply dec_without. }
  etransitivity; [exact (split_prefix_length ":" " day" _ eq_refl) |].
  destruct (Z.abs (n / 86400) =? 1); cbn [append].
  - etransitivity; [exact (split_prefix_length ":" ", " _ eq_refl) |].
    exact Hclock.
  - etransitivity; [exact (split_prefix_length ":" "s, " _ eq_refl) |].
    exact Hclock.
Qed.

End LabelFacts.

(** X13.  The label [offsetText] always has three fields separated by
    colons, hours included, whatever the start; for a start whose whole
    seconds [w] are at least 0 and below one day it is the hours without
    padding, the minutes and the seconds on two digits each. *)
Theorem offset_text_has_hours (data : caption_data) (out : converted) :
  convert_caption_data data = Ok out ->
  exists w,
    Binary64.to_int (data_start_sec data) = Ok w
    /\ List.length (split ":" (offsetText out)) = 3%nat
    /\ (0 <= w < 86400 ->
        offsetText out
        = dec (w / 60 / 60) ++ ":" ++ zfill 2 (dec (w / 60 mod 60)) ++ ":"
          ++ zfill 2 (dec (w mod 60))).
Proof.
  unfold convert_caption_data.
  destruct (Binary64.to_int (Binary64.mul (data_start_sec data) _));
    [| discriminate].
  cbn [bind].
  destruct (Binary64.to_int (data_start_sec data)) as [w |]; [| discriminate].
  cbn [bind].
  destruct (timedelta_str w) as [t |] eqn:Et; [| discriminate]. cbn [bind].
  destruct (Binary64.to_int (Binary64.mul (Binary64.sub _ _) _));
    [| discriminate].
  cbn [bind]. intros [= <-]. cbn [offsetText].
  exists w. split; [reflexivity |].
  split; [exact (LabelFacts.timedelta_three_fields w t Et) |].
  intros Hw. unfold timedelta_str in Et.
  rewrite (Z.div_small w 86400 Hw), (Z.mod_small w 86400 Hw) in Et.
  cbv zeta iota beta in Et. cbn [Z.abs Z.ltb Z.compare Z.eqb] in Et.
  injection Et as <-.
  rewrite !TimestampFacts.fmt_02d_nonneg;
    [reflexivity | apply Z.mod_pos_bound; lia | apply Z.mod_pos_bound; lia].
Qed.

Lemma offset_text_has_hours_witness :
  let data :=
    mkData (Binary64.of_Z 3725) (Binary64.of_Z 3730) "hello" in
  exists w,
    Binary64.to_int (data_start_sec data) = Ok w
    /\ List.length (split ":" "1:02:05") = 3%nat.
Proof.
  cbv zeta.
  destruct (offset_text_has_hours
              (mkData (Binary64.of_Z 3725) (Binary64.of_Z 3730) "hello")
              (mkConverted "hello" 3725000 "1:02:05" 5000))
    as (w & Hw & Hl & _).
  - vm_compute. reflexivity.
  - exists w. split; [exact Hw | exact Hl].
Defined.

Module SignFacts.

Import Binary64 Binary64Facts.

Lemma finite_value_pos (m : positive) (e : Z) :
  (0 < (if 0 <=? e then inject_Z (Z.pos m * 2 ^ e)
        else inject_Z (Z.pos m) / inject_Z (2 ^ (- e))))%Q.
Proof.
  destruct (0 <=? e) eqn:He.
  - apply Z.leb_le in He. pose proof (pow2_pos e He).
    rewrite <- Zlt_Qlt with (x := 0). lia.
  - apply Z.leb_gt in He. pose proof (pow2_pos (- e) ltac:(lia)) as Hp.
    apply Qlt_shift_div_l.
    + rewrite <- Zlt_Qlt with (x := 0). exact Hp.
    + rewrite Qmult_0_l. rewrite <- Zlt_Qlt with (x := 0). lia.
Qed.

Lemma to_int_finite_sign (s : bool) (m : positive) (e : Z) (z : Z) :
  to_int (S754_finite s m e) = Ok z ->
  if s then z <= 0 else 0 <= z.
Proof.
  unfold to_int. intros Hz.
  set (w := if 0 <=? e then Z.pos m * 2 ^ e else Z.pos m / 2 ^ (- e)) in Hz.
  assert (H : 0 <= w).
  { unfold w. destruct (0 <=? e) eqn:He.
    - apply Z.leb_le in He. pose proof (pow2_pos e He). lia.
    - apply Z.leb_gt in He. apply Z.div_pos; [lia |].
      apply pow2_pos. lia. }
  clearbody w. injection Hz as <-. destruct s; unfold sign_of; lia.
Qed.

(** The integer part of a float times 1000 has the sign of the float. *)
Lemma to_int_scaled_sign (y : float) (z : Z) :
  to_int (mul y (of_Z 1000)) = Ok z ->
  ((0 <= value y)%Q -> 0 <= z) /\ ((value y <= 0)%Q -> z <= 0).
Proof.
  change (of_Z 1000) with (S754_finite false 8796093022208000 (-43)).
  destruct y as [s | s | | s m e]; cbn [mul SFmul]; try discriminate.
  - cbn [to_int]. intros [= <-]. split; lia.
  - unfold mul, SFmul, binary_round_aux.
    destruct (shr_fexp _ _ _ _ _) as [mrs' e'].
    destruct (shr_fexp _ _ _ _ _) as [mrs'' e''].
    pose proof (finite_value_pos m e) as Hv.
    destruct (shr_m mrs'') as [| p | p]; [| | discriminate].
    + cbn [to_int]. intros [= <-]. split; lia.
    + destruct (e'' <=? emax - prec); [| discriminate].
      intros H. apply to_int_finite_sign in H. cbn [value].
      destruct s; cbn [xorb] in H; split; intros Hs; try lia.
      * exfalso. apply (Qlt_irrefl 0).
        eapply Qlt_le_trans; [exact Hv |].
        apply Qopp_le_compat in Hs. rewrite Qopp_involutive in Hs. exact Hs.
      * exfalso. apply (Qlt_irrefl 0).
        eapply Qlt_le_trans; [exact Hv | exact Hs].
Qed.

End SignFacts.

(** X14.  The offset has the sign of [start_sec] and the duration the sign
    of the binary64 difference [end_sec - start_sec]: a start that is not
    negative never gives a negative offset, and a difference that is not
    positive never gives a positive duration. *)
Theorem offset_and_duration_signs (data : caption_data) (out : converted) :
  convert_caption_data data = Ok out ->
  let d := Binary64.sub (data_end_sec data) (data_start_sec data) in
  ((0 <= Binary64.value (data_start_sec data))%Q -> 0 <= offset out)
  /\ ((Binary64.value (data_start_sec data) <= 0)%Q -> offset out <= 0)
  /\ ((0 <= Binary64.value d)%Q -> 0 <= duration out)
  /\ ((Binary64.value d <= 0)%Q -> duration out <= 0).
Proof.
  unfold convert_caption_data. intros H. cbv zeta.
  destruct (Binary64.to_int (Binary64.mul (data_start_sec data) _))
    as [o |] eqn:Ho; [| discriminate].
  cbn [bind] in H.
  destruct (Binary64.to_int (data_start_sec data)); [| discriminate].
  cbn [bind] in H.
  destruct (timedelta_str _); [| discriminate]. cbn [bind] in H.
  destruct (Binary64.to_int (Binary64.mul (Binary64.sub _ _) _))
    as [u |] eqn:Hu; [| discriminate].
  cbn [bind] in H. injection H as <-. cbn [offset duration].
  destruct (SignFacts.to_int_scaled_sign _ _ Ho).
  destruct (SignFacts.to_int_scaled_sign _ _ Hu).
  auto.
Qed.

Lemma offset_and_duration_signs_witness :
  let data :=
    mkData (Binary64.div (Binary64.of_Z 1001) (Binary64.of_Z 1000))
           (Binary64.div (Binary64.of_Z 2002) (Binary64.of_Z 1000)) "hello" in
  (0 <= Binary64.value (data_start_sec data))%Q /\ 0 <= 1000.
Proof.
  cbv zeta.
  assert (Hv : (0 <= Binary64.value
                      (Binary64.div (Binary64.of_Z 1001) (Binary64.of_Z 1000)))%Q)
    by (vm_compute; discriminate).
  split; [exact Hv |].
  refine (proj1 (offset_and_duration_signs
                   (mkData (Binary64.div (Binary64.of_Z 1001) (Binary64.of_Z 1000))
                           (Binary64.div (Binary64.of_Z 2002) (Binary64.of_Z 1000))
                           "hello")
                   (mkConverted "hello" 1000 "0:00:01" 1000) _) Hv).
  vm_compute. reflexivity.
Defined.

(** ** The gap the overlap correction leaves *)

(** X15.  When an iteration yields the previous cue [a] and the incoming
    cue [c], which starts at or after zero, starts at or before the end of
    the previous cue, the end of [a] is the start of [c] less one
    millisecond, or zero when that would be negative; its start and its
    text are those of the previous cue.  When [c] starts after the end of
    the previous cue, [a] is the previous cue as it was. *)
Theorem overlap_leaves_one_ms (p c a p' : Caption) :
  iteration p c = Ok ([a], p') ->
  (0 <= _ts_to_secs (start_time c))%Q ->
  ((_ts_to_secs (start_time c) <= _ts_to_secs (end_time p))%Q ->
   (_ts_to_secs (end_time a)
    == max0 (_ts_to_secs (start_time c) - (1 # 1000)))%Q
   /\ start_time a = start_time p /\ text a = text p)
  /\ (~ (_ts_to_secs (start_time c) <= _ts_to_secs (end_time p))%Q -> a = p).
Proof.
  unfold iteration.
  set (c1 := set_text (strip (text c)) c).
  destruct (length (text c1) =? 0)%nat; [discriminate |].
  destruct (short_duplicate p c1).
  { destruct (set_end (get_end c1) p); discriminate. }
  destruct (line_rules p c1) as [o |] eqn:El; [| discriminate].
  apply MergerFacts.line_rules_timing in El. cbn [bind].
  destruct o as [p1 | sw c2]; [discriminate |].
  destruct El as [Es Ee]. rewrite Es.
  change (start_time c1) with (start_time c).
  intros H H0.
  destruct (Qle_bool (_ts_to_secs (start_time c)) (_ts_to_secs (end_time p)))
    eqn:Eo.
  - destruct (set_end _ p) as [p2 |] eqn:E2; [| discriminate].
    cbn [bind] in H.
    destruct (MergerFacts.new_time_ms (start_time c) H0) as (k & Hk & Hnew & _).
    destruct (MergerFacts.set_end_formatted _ k p p2 Hk Hnew E2) as [Hst Hend].
    assert (Ha : a = p2).
    { destruct (if Qle_bool _ _ then _ else _) as [c3 |]; [| discriminate].
      cbn [bind] in H. destruct sw; cbn [negb] in H; congruence. }
    subst a. split.
    + intros _. split; [exact Hend |]. split; [exact Hst |].
      unfold set_end in E2. destruct (Timestamp_from_string _); [| discriminate].
      cbn [bind] in E2. now injection E2 as <-.
    + intros Hn. exfalso. apply Hn. now apply Qle_bool_iff.
  - cbn [bind] in H.
    assert (Ha : a = p).
    { destruct (if Qle_bool _ _ then _ else _) as [c3 |]; [| discriminate].
      cbn [bind] in H. destruct sw; cbn [negb] in H; congruence. }
    split; [| intros _; exact Ha].
    intros Hle. apply Qle_bool_iff in Hle. congruence.
Qed.

Lemma overlap_leaves_one_ms_witness :
  (_ts_to_secs (end_time (cue 0 1499 "one two three"))
   == max0 (_ts_to_secs (start_time (cue 1500 4000 "four five six"))
            - (1 # 1000)))%Q.
Proof.
  refine (proj1 (proj1 (overlap_leaves_one_ms
                          (cue 0 2000 "one two three")
                          (cue 1500 4000 "four five six")
                          (cue 0 1499 "one two three")
                          (cue 1500 4000 "four five six") _ _) _)).
  - vm_compute. reflexivity.
  - vm_compute. discriminate.
  - vm_compute. discriminate.
Defined.

(** ** Automatic captions in other variants of English *)

(** X16.  Automatic captions have no fallback to other variants of
    English: when no manual subtitles are listed and none of en-orig,
    en-US, en-CA and en is a key of the automatic captions, no track is
    returned, whatever other keys the automatic captions have. *)
Theorem automatic_variants_not_selected (info : Info)
  (autos : dict (list Track)) :
  truthy_dict (subtitles info) = None ->
  automatic_captions info = Some autos ->
  Forall (fun l => lookup l autos = None) auto_caption_priorities ->
  get_captions_by_priority info = None.
Proof.
  intros Hsubs Hautos Hnone.
  assert (Hfirst : first_listed auto_caption_priorities autos = None).
  { destruct (first_listed auto_caption_priorities autos) eqn:E;
      [| reflexivity].
    apply SelectorFacts.first_listed_some in E
      as (pre & lang & post & Hp & Hl & _).
    rewrite Forall_forall in Hnone. rewrite (Hnone lang) in Hl; [discriminate |].
    rewrite Hp. apply in_elt. }
  unfold get_captions_by_priority, select_language.
  rewrite Hsubs, Hautos. cbn [falsy].
  destruct autos as [| kv autos]; [reflexivity |].
  cbn [truthy_dict]. now rewrite Hfirst.
Qed.

Lemma automatic_variants_not_selected_witness :
  get_captions_by_priority
    (mkInfo None
       (Some [("en-GB", [mkTrack (Some "English (UK)") None (Some "vtt") None])]))
  = None.
Proof.
  eapply automatic_variants_not_selected.
  - reflexivity.
  - reflexivity.
  - repeat constructor.
Defined.

(** ** From ordered cues to ordered segments *)

Lemma matching_segments_in_order (ys : list Caption) (segs : list Segment) :
  Forall2 segment_matches ys segs -> no_overlap ys -> segments_in_order segs.
Proof.
  induction 1 as [| y s ys segs Hys Hrest IH]; [auto |].
  destruct Hrest as [| y' s' ys' segs' Hys' Hrest']; [auto |].
  cbn [no_overlap segments_in_order]. intros [Hle Hno]. split.
  - destruct Hys as (_ & _ & _ & He & _). destruct Hys' as (_ & _ & Hs & _).
    now rewrite He, Hs.
  - apply IH. exact Hno.
Qed.

(** X17.  When the parser returns valid cues in the order of their starts,
    each cue after the first starting before its own end, [parse_captions]
    returns segments of which none ends after the next one starts. *)
Theorem ordered_cues_give_ordered_segments
  (from_string : string -> result (list Caption)) (content : string)
  (first : Caption) (rest : list Caption) :
  from_string content = Ok (first :: rest) ->
  Forall valid_cue (first :: rest) ->
  ordered_after (_ts_to_secs (start_time first)) rest ->
  exists segs,
    parse_captions from_string "vtt" content = Ok segs
    /\ segments_in_order segs.
Proof.
  intros Hparse Hall Hord.
  inversion Hall as [| ? ? Hf Hr]; subst.
  destruct (TotalFacts.dedupe_from_total rest first Hf Hr)
    as (ys & Hy & Hvalid & _).
  destruct (MergerFacts.dedupe_from_no_overlap rest first _ Hord Hy)
    as (ys' & Heq & Hno & _).
  assert (ys' = ys); [| subst ys'].
  { clear - Heq. revert ys' Heq.
    induction ys as [| y ys IH]; intros [| y' ys']; simpl; try discriminate; auto.
    intros [= -> H]. f_equal. now apply IH. }
  destruct (SegmentFacts.segments_from_valid ys [] Hvalid)
    as (segs & Hsegs & Hmatch).
  exists segs. split; [| exact (matching_segments_in_order ys segs Hmatch Hno)].
  unfold parse_captions. cbn [String.eqb Ascii.eqb Bool.eqb negb].
  rewrite Hparse. cbn [bind]. unfold dedupe_yt_captions.
  change (dedupe_from None (first :: rest))
    with (dedupe_from (Some first) rest).
  rewrite Hy. cbn [bind]. exact Hsegs.
Qed.

Lemma ordered_cues_give_ordered_segments_witness :
  exists segs,
    parse_captions
      (fun _ => Ok [cue 0 2000 (lines2 "line one" "line two");
                    cue 1500 4000 (lines2 "line two" "line three")])
      "vtt" "WEBVTT" = Ok segs
    /\ segments_in_order segs.
Proof.
  apply (ordered_cues_give_ordered_segments
           (fun _ => Ok [cue 0 2000 (lines2 "line one" "line two");
                         cue 1500 4000 (lines2 "line two" "line three")])
           "WEBVTT"
           (cue 0 2000 (lines2 "line one" "line two"))
           [cue 1500 4000 (lines2 "line two" "line three")]).
  - reflexivity.
  - repeat constructor; vm_compute; intuition discriminate.
  - repeat split; vm_compute; intuition discriminate.
Defined.

(** ** The second pass of the merger *)

Module SecondPassFacts.

Import DigitFacts ParseFacts TimestampFacts MergerFacts StringFacts TotalFacts.

Local Open Scope Q_scope.

(** Valid timestamps of the same time are the same timestamp. *)
Lemma valid_timestamp_eq (t t' : Timestamp) :
  valid_timestamp t -> valid_timestamp t' ->
  _ts_to_secs t == _ts_to_secs t' -> t = t'.
Proof.
  intros Ht Ht' H. rewrite !ts_to_secs_ms in H.
  unfold Qeq in H. cbn [Qnum Qden] in H.
  destruct t as [h m s ms], t' as [h' m' s' ms'].
  unfold valid_timestamp, in_seconds in *.
  cbn [hours minutes seconds milliseconds] in *.
  assert (h = h') by lia. assert (m = m') by lia.
  assert (s = s') by lia. assert (ms = ms') by lia.
  now subst.
Qed.

Lemma valid_timestamp_zero (t : Timestamp) :
  valid_timestamp t -> _ts_to_secs t == 0 -> t = at_ms 0.
Proof.
  intros Ht H. apply valid_timestamp_eq; [exact Ht | |].
  - apply at_ms_valid. lia.
  - rewrite H, ts_to_secs_at_ms. reflexivity.
Qed.

(** The time the overlap correction writes is before the start of the
    incoming cue, unless that start is zero. *)
Lemma new_time_strict (t : Timestamp) :
  0 <= _ts_to_secs t ->
  max0 (_ts_to_secs t - (1 # 1000)) < _ts_to_secs t
  \/ (max0 (_ts_to_secs t - (1 # 1000)) == 0 /\ _ts_to_secs t == 0).
Proof.
  intros H0. pose proof (ts_to_secs_ms t) as Hms.
  set (K := (in_seconds t * 1000 + milliseconds t)%Z) in *.
  unfold max0. destruct (Qltb _ 0) eqn:Hlt.
  - right. split; [reflexivity |].
    apply Qltb_lt in Hlt. rewrite Hms in Hlt, H0 |- *.
    unfold Qlt, Qminus, Qplus, Qopp in Hlt. cbn [Qnum Qden] in Hlt.
    unfold Qle in H0. cbn [Qnum Qden] in H0.
    change (Z.pos (1000 * 1000)) with 1000000%Z in Hlt.
    assert (K = 0%Z) by lia. subst K. rewrite H. reflexivity.
  - left. rewrite <- (Qplus_0_r (_ts_to_secs t)) at 2.
    apply Qplus_lt_r. reflexivity.
Qed.

Lemma valid_timestamp_nonneg (t : Timestamp) :
  valid_timestamp t -> 0 <= _ts_to_secs t.
Proof.
  intros Ht. rewrite ts_to_secs_ms.
  pose proof (valid_ms_bounds t Ht) as Hb.
  unfold Qle. cbn [Qnum Qden]. lia.
Qed.

(** One iteration of the first pass on an incoming cue that does not end
    before it starts: a cue it yields ends before the incoming cue starts,
    or both at zero. *)
Lemma iteration_gap (p c p' : Caption) (yl : list Caption) :
  valid_cue c -> forward c ->
  iteration p c = Ok (yl, p') ->
  (yl = [] /\ (start_time p' = start_time p \/ start_time p' = start_time c))
  \/ (exists a, yl = [a] /\ start_time a = start_time p
                /\ start_time p' = start_time c
                /\ (_ts_to_secs (end_time a) < _ts_to_secs (start_time c)
                    \/ (_ts_to_secs (end_time a) == 0
                        /\ _ts_to_secs (start_time c) == 0))).
Proof.
  intros Hc Hfw.
  pose proof (valid_timestamp_nonneg _ (proj1 Hc)) as H0.
  unfold iteration.
  set (c1 := set_text (strip (text c)) c).
  destruct (length (text c1) =? 0)%nat.
  { intros [= <- <-]. left. auto. }
  destruct (short_duplicate p c1).
  { destruct (set_end (get_end c1) p) as [p1 |] eqn:E; [| discriminate].
    cbn [bind]. intros [= <- <-]. left. split; [reflexivity |].
    left. exact (set_end_start _ _ _ E). }
  destruct (line_rules p c1) as [o |] eqn:El; [| discriminate].
  apply line_rules_timing in El. cbn [bind].
  destruct o as [p1 | sw c2].
  { intros [= <- <-]. left. auto. }
  destruct El as [Es Ee]. unfold get_end, get_start. rewrite Es, Ee.
  change (start_time c1) with (start_time c).
  change (end_time c1) with (end_time c).
  assert (Hswap : exists c3,
             (if Qle_bool (_ts_to_secs (end_time c)) (_ts_to_secs (start_time c))
              then
                subtitle <- set_start (Timestamp_str (end_time c)) c2 ;;
                set_end (Timestamp_str (start_time c)) subtitle
              else Ok c2) = Ok c3
             /\ start_time c3 = start_time c).
  { destruct (Qle_bool (_ts_to_secs (end_time c)) _) eqn:Esw.
    - apply Qle_bool_iff in Esw.
      assert (Heq : start_time c = end_time c).
      { apply valid_timestamp_eq; [apply Hc | apply Hc |].
        now apply Qle_antisym. }
      rewrite (set_start_str _ _ (proj2 Hc)). cbn [bind].
      rewrite (set_end_str _ _ (proj1 Hc)).
      eexists. split; [reflexivity |]. cbn [start_time]. now rewrite Heq.
    - exists c2. auto. }
  destruct Hswap as (c3 & -> & Hc3).
  destruct (Qle_bool (_ts_to_secs (start_time c)) (_ts_to_secs (end_time p)))
    eqn:Eo.
  - destruct (set_end _ p) as [p2 |] eqn:E2; [| discriminate].
    cbn [bind]. intros [= <- <-].
    destruct (new_time_ms (start_time c) H0) as (k & Hk & Hnew & Hle).
    destruct (set_end_formatted _ k p p2 Hk Hnew E2) as [Hst Hend].
    destruct sw; [left; auto |].
    right. exists p2. repeat split; auto.
    rewrite Hend. apply (new_time_strict (start_time c) H0).
  - cbn [bind]. intros [= <- <-].
    destruct sw; [left; auto |].
    right. exists p. repeat split; auto.
    left. apply Qnot_le_lt. rewrite <- Qle_bool_iff. congruence.
Qed.

Lemma apart_later (a : Caption) (tc : Q) (y : Caption) :
  (_ts_to_secs (end_time a) < tc
   \/ (_ts_to_secs (end_time a) == 0 /\ tc == 0)) ->
  tc <= _ts_to_secs (start_time y) ->
  apart a y.
Proof.
  intros [Hlt | [Ha Hc]] Hle; unfold apart.
  - left. now apply Qlt_le_trans with tc.
  - destruct (Qlt_le_dec 0 (_ts_to_secs (start_time y))) as [Hpos | Hnp].
    + left. now rewrite Ha.
    + right. split; [exact Ha |]. apply Qle_antisym; [exact Hnp |].
      now rewrite <- Hc.
Qed.

Lemma in_order_after_weaken (lo lo' : Q) (rest : list Caption) :
  lo' <= lo -> in_order_after lo rest -> in_order_after lo' rest.
Proof.
  destruct rest as [| c rest]; simpl; [auto |].
  intros Hle (H1 & H2 & H3).
  split; [now apply Qle_trans with lo | split; assumption].
Qed.

Lemma map_Some_app {A : Type} (yl : list A) (out : list (option A)) :
  forall ys, (map Some yl ++ out)%list = map Some ys ->
             exists ys', out = map Some ys' /\ ys = (yl ++ ys')%list.
Proof.
  induction yl as [| a yl IH]; intros ys Hout; cbn [map app] in Hout.
  - exists ys. auto.
  - destruct ys as [| y ys]; [discriminate |]. cbn [map] in Hout.
    injection Hout as <- Hout.
    destruct (IH ys Hout) as (ys' & -> & ->). exists ys'. auto.
Qed.

(** The cues the first pass yields on cues in order are apart. *)
Lemma dedupe_from_gapped (rest : list Caption) :
  forall (p : Caption) (ys : list Caption),
    Forall valid_cue rest ->
    in_order_after (_ts_to_secs (start_time p)) rest ->
    dedupe_from (Some p) rest = Ok (map Some ys) ->
    gapped ys
    /\ match ys with
       | y :: _ => _ts_to_secs (start_time p) <= _ts_to_secs (start_time y)
       | [] => True
       end.
Proof.
  induction rest as [| c rest IH]; intros p ys Hall Hord; cbn [dedupe_from].
  - destruct ys as [| y [| y' ys]]; try discriminate.
    intros [= <-]. split; [exact I | apply Qle_refl].
  - destruct Hord as (Hpc & Hfw & Hrest).
    inversion Hall as [| ? ? Hc Hvrest]; subst.
    destruct (iteration p c) as [[yl p'] |] eqn:Eit; [| discriminate].
    cbn [bind].
    destruct (dedupe_from (Some p') rest) as [out' |] eqn:Eout; [| discriminate].
    cbn [bind]. intros [= Hout].
    destruct (map_Some_app yl out' ys Hout) as (ys' & -> & ->).
    destruct (iteration_gap p c p' yl Hc Hfw Eit)
      as [[-> [Hs | Hs]] | (a & -> & Hsa & Hs & Hea)].
    + destruct (IH p' ys' Hvrest) as (Hg & Hhd); [| exact Eout |].
      * rewrite Hs.
        now apply in_order_after_weaken with (_ts_to_secs (start_time c)).
      * split; [exact Hg |]. now rewrite <- Hs.
    + destruct (IH p' ys' Hvrest) as (Hg & Hhd); [| exact Eout |].
      * now rewrite Hs.
      * split; [exact Hg |]. rewrite Hs in Hhd.
        destruct ys' as [| y ys']; [exact I |].
        now apply Qle_trans with (_ts_to_secs (start_time c)).
    + destruct (IH p' ys' Hvrest) as (Hg & Hhd); [| exact Eout |].
      * now rewrite Hs.
      * rewrite Hs in Hhd. split.
        -- destruct ys' as [| y ys']; [exact I |]. split; [| exact Hg].
           exact (apart_later a _ y Hea Hhd).
        -- cbn [app]. rewrite Hsa. apply Qle_refl.
Qed.

(** On the second pass a cue that the text rules keep, that is apart from
    the cue before it and does not end before it starts, is handed on with
    its text stripped, and the cue before it is yielded as it is. *)
Lemma second_pass_iteration (p c : Caption) :
  valid_cue p -> valid_cue c -> apart p c ->
  text_kept p c = true ->
  Qle_bool (_ts_to_secs (start_time c)) (_ts_to_secs (end_time c)) = true ->
  iteration p c = Ok ([p], stripped c).
Proof.
  intros Hp Hc Hap Hk Hse. unfold text_kept in Hk. cbv zeta in Hk.
  rewrite !andb_true_iff, !negb_true_iff in Hk.
  destruct Hk as [[[Hlen Htok] Hcont] Hline].
  unfold iteration. fold (stripped c).
  change (text (stripped c)) with (strip (text c)).
  rewrite Hlen. unfold short_duplicate.
  change (text (stripped c)) with (strip (text c)).
  rewrite Hcont, andb_false_r. unfold line_rules.
  change (text (stripped c)) with (strip (text c)).
  rewrite Hline.
  assert (Htok' : (List.length (split sp (strip (text c))) <=? 2)%nat = false).
  { apply Nat.ltb_lt in Htok. apply Nat.leb_gt. exact Htok. }
  rewrite Htok'. cbn [bind].
  change (start_time (stripped c)) with (start_time c).
  change (end_time (stripped c)) with (end_time c).
  assert (Hov : (if Qle_bool (_ts_to_secs (start_time c))
                             (_ts_to_secs (end_time p))
                 then set_end (_seconds_to_timestamp
                                 (max0 (_ts_to_secs (start_time c) - (1 # 1000))))
                              p
                 else Ok p) = Ok p).
  { destruct (Qle_bool (_ts_to_secs (start_time c))
                       (_ts_to_secs (end_time p))) eqn:Eo; [| reflexivity].
    apply Qle_bool_iff in Eo.
    destruct Hap as [Hlt | [Hpe Hcs]];
      [exfalso; exact (Qlt_not_le _ _ Hlt Eo) |].
    assert (Hnew : max0 (_ts_to_secs (start_time c) - (1 # 1000)) == 0 # 1000).
    { unfold max0. destruct (Qltb _ 0) eqn:Hlt; [reflexivity |].
      exfalso. apply not_true_iff_false in Hlt. apply Hlt.
      apply Qltb_lt. rewrite Hcs. reflexivity. }
    unfold set_end. rewrite (seconds_to_timestamp_comp _ _ Hnew).
    rewrite (from_string_seconds 0) by lia. cbn [bind].
    rewrite <- (valid_timestamp_zero (end_time p) (proj2 Hp) Hpe).
    now destruct p. }
  rewrite Hov. cbn [bind].
  assert (Hsw : (if Qle_bool (_ts_to_secs (end_time c))
                             (_ts_to_secs (start_time c))
                 then
                   let '(new_start, new_end) :=
                     (get_end (stripped c), get_start (stripped c)) in
                   subtitle <- set_start new_start (stripped c) ;;
                   set_end new_end subtitle
                 else Ok (stripped c)) = Ok (stripped c)).
  { destruct (Qle_bool (_ts_to_secs (end_time c)) _) eqn:Es; [| reflexivity].
    apply Qle_bool_iff in Es. apply Qle_bool_iff in Hse.
    assert (Heq : start_time c = end_time c).
    { apply valid_timestamp_eq; [apply Hc | apply Hc |].
      now apply Qle_antisym. }
    unfold get_end, get_start.
    change (start_time (stripped c)) with (start_time c).
    change (end_time (stripped c)) with (end_time c).
    rewrite (set_start_str _ _ (proj2 Hc)). cbn [bind].
    rewrite (set_end_str _ _ (proj1 Hc)).
    unfold stripped, set_text. cbn [start_time end_time text].
    now rewrite Heq. }
  rewrite Hsw. reflexivity.
Qed.

Lemma gapped_stripped (c : Caption) (rest : list Caption) :
  gapped (c :: rest) -> gapped (stripped c :: rest).
Proof. destruct rest; [auto | exact (fun H => H)]. Qed.

Lemma second_pass_from (rest : list Caption) :
  forall p,
    valid_cue p -> Forall valid_cue rest -> gapped (p :: rest) ->
    clean_after p rest = true ->
    dedupe_from (Some p) rest = Ok (map Some (p :: map stripped rest)).
Proof.
  induction rest as [| c rest IH]; intros p Hp Hall Hg; cbn [clean_after].
  - reflexivity.
  - rewrite !andb_true_iff. intros [[Hk Hse] Hclean].
    inversion Hall as [| ? ? Hc Hrest]; subst.
    destruct Hg as [Hap Hg].
    cbn [dedupe_from].
    rewrite (second_pass_iteration p c Hp Hc Hap Hk Hse). cbn [bind].
    rewrite (IH (stripped c) Hc Hrest (gapped_stripped c rest Hg) Hclean).
    reflexivity.
Qed.

Lemma map_Some_inj {A : Type} (l l' : list A) :
  map Some l = map Some l' -> l = l'.
Proof.
  revert l'. induction l as [| a l IH]; intros [| a' l']; simpl;
    try discriminate; auto.
  intros [= -> H]. f_equal. now apply IH.
Qed.

End SecondPassFacts.

(** C8, amended.  Let the merger yield the cues [ys] on valid cues.  Running
    the merger again on [ys] changes nothing but the white space around the
    text of the cues after the first, provided that

    - [ys] is free of overlap: each cue ends before the next one starts, or
      both times are zero.  This holds of itself when the input cues come in
      the order of their starts and none of them ends before it starts;
    - no cue of [ys] after the first ends before it starts;
    - the stripped text of each cue of [ys] after the first is not empty, has
      more than two tokens, does not occur in the text of the cue before it
      and does not begin with that cue's last line. *)
Theorem second_pass_keeps_clean_output (input ys : list Caption) :
  Forall valid_cue input ->
  dedupe_yt_captions input = Ok (map Some ys) ->
  gapped ys \/ in_order input ->
  clean ys = true ->
  dedupe_yt_captions ys = Ok (map Some (restripped ys)).
Proof.
  intros Hall Hy Hgap Hclean.
  destruct input as [| first rest].
  { destruct ys; discriminate. }
  inversion Hall as [| ? ? Hf Hr]; subst.
  destruct (TotalFacts.dedupe_from_total rest first Hf Hr)
    as (ys' & Hy' & Hvalid & Hlen).
  unfold dedupe_yt_captions in Hy.
  change (dedupe_from None (first :: rest))
    with (dedupe_from (Some first) rest) in Hy.
  assert (ys' = ys).
  { apply SecondPassFacts.map_Some_inj. congruence. }
  subst ys'.
  assert (Hg : gapped ys).
  { destruct Hgap as [Hg | Hord]; [exact Hg |].
    exact (proj1 (SecondPassFacts.dedupe_from_gapped rest first ys Hr Hord Hy)). }
  destruct ys as [| y ys]; [simpl in Hlen; lia |].
  inversion Hvalid as [| ? ? Hvy Hvys]; subst.
  exact (SecondPassFacts.second_pass_from ys y Hvy Hvys Hg Hclean).
Qed.

Lemma second_pass_keeps_clean_output_witness :
  let ys := [cue 0 0 "one two three"; cue 0 2000 "four five six"] in
  dedupe_yt_captions ys = Ok (map Some ys).
Proof.
  cbv zeta.
  apply (second_pass_keeps_clean_output
           [cue 0 1000 "one two three"; cue 0 2000 "four five six"]
           [cue 0 0 "one two three"; cue 0 2000 "four five six"]).
  - repeat constructor; vm_compute; intuition discriminate.
  - vm_compute. reflexivity.
  - right. repeat split; vm_compute; intuition discriminate.
  - vm_compute. reflexivity.
Defined.

(** The provisos on the times are needed, each by itself.  In the first
    example the input is in order and the overlap correction leaves the
    second cue of the output ending 1 ms before it starts: the second pass
    swaps its times and then corrects the overlap this makes.  In the second example the second input cue ends before
    it starts and the output overlaps: the second pass moves the end of the
    first cue. *)
Lemma second_pass_retimes :
  (let input := [cue 0 1000 "one two three"; cue 2000 3000 "four five six";
                 cue 2000 4000 "seven eight nine"] in
   let first_pass := [cue 0 1000 "one two three"; cue 2000 1999 "four five six";
                      cue 2000 4000 "seven eight nine"] in
   dedupe_yt_captions input = Ok (map Some first_pass)
   /\ dedupe_yt_captions first_pass
      = Ok (map Some [cue 0 1000 "one two three"; cue 1999 1999 "four five six";
                      cue 2000 4000 "seven eight nine"]))
  /\ (let input := [cue 0 5000 "one two three"; cue 4000 1000 "four five six"] in
      let first_pass := [cue 0 3999 "one two three";
                         cue 1000 4000 "four five six"] in
      dedupe_yt_captions input = Ok (map Some first_pass)
      /\ dedupe_yt_captions first_pass
         = Ok (map Some [cue 0 999 "one two three";
                         cue 1000 4000 "four five six"])).
Proof. cbv zeta. repeat split; vm_compute; reflexivity. Qed.
